(** * PDG_Go_AVPB: the CFG annotation and metrics engine ([genDot])

    A shallow embedding of [src/main.go] (the second, metric-bearing version
    of the program: [getValue], [genDot], [findNextBlockWithNodes]) and the
    properties its specification states about it.

    Conventions.
    - Go strings are byte strings: [string].
    - A Go run-time panic (failed type assertion, index out of range) is the
      [Panic] outcome of the [result] monad; it aborts the whole call.
    - Go [map]s are [gmap]s, maps used as sets ([map[string]bool] that is only
      ever written with [true]) are [gset]s.  [range] over a map visits the
      keys in an order the run time picks; the embedding takes that order as
      a [MapOrder] argument.
    - [go/ast] and [golang.org/x/tools/go/cfg] are external: their data types
      are given here as far as the program reads them. *)

From Equations Require Import Equations.
From Stdlib Require Import QArith Lqa Ascii String.
From stdpp Require Import base strings gmap list sets pretty relations.
Close Scope Q_scope.
Set Warnings "-register-all,-clear-no-such-hyp".

(** ** Outcomes of fallible Go code *)

Inductive result (A : Type) : Type :=
| Ok (a : A)
| Panic.
Arguments Ok {A} a.
Arguments Panic {A}.

#[global] Instance result_ret : MRet result := fun A a => Ok a.
#[global] Instance result_bind : MBind result := fun A B f m =>
  match m with
  | Ok a => f a
  | Panic => Panic
  end.

Definition is_Ok {A} (r : result A) : Prop := exists a, r = Ok a.

(** ** Strings *)

Module GoString.

(** The double quote and the line feed. *)
Definition dq : string := String "034"%char EmptyString.
Definition nl : string := String "010"%char EmptyString.
Definition backslash : string := String "092"%char EmptyString.

(** [s] is the empty string. *)
Definition isEmpty (s : string) : bool :=
  match s with
  | EmptyString => true
  | String _ _ => false
  end.

(** [strings.Contains(s, sub)] *)
Fixpoint contains (s sub : string) : bool :=
  String.prefix sub s ||
  match s with
  | EmptyString => false
  | String _ s' => contains s' sub
  end.

(** [strings.Join(l, sep)] *)
Fixpoint join (l : list string) (sep : string) : string :=
  match l with
  | [] => EmptyString
  | [x] => x
  | x :: l' => x +:+ sep +:+ join l' sep
  end.

(** [strings.ReplaceAll(s, `"`, `\"`)] *)
Fixpoint escapeQuotes (s : string) : string :=
  match s with
  | EmptyString => EmptyString
  | String c s' =>
      if Ascii.eqb c "034"%char
      then backslash +:+ dq +:+ escapeQuotes s'
      else String c (escapeQuotes s')
  end.

(** The strings of a list, one after the other. *)
Fixpoint concatAll (l : list string) : string :=
  match l with
  | [] => EmptyString
  | s :: l' => s +:+ concatAll l'
  end.

(** [fmt.Sprintf("%d", i)] *)
Definition itoa (i : Z) : string := pretty i.

End GoString.
Import GoString.

(** ** The cleanup pass
    [regexp.MustCompile(`label="block \d+ ([^"]+)"`).ReplaceAllString(dot, `label="$1"`)].

    The expression has one way to match at a given position: the digits are
    followed by a space, so [\d+] takes all of them, and [[^"]+] is followed
    by a quote, so it takes everything up to the next quote. *)

Module Cleanup.

Definition isDigit (c : ascii) : bool :=
  let n := nat_of_ascii c in (48 <=? n) && (n <=? 57).

Definition isQuote (c : ascii) : bool := Ascii.eqb c "034"%char.

(** Strip the literal [p] from the front of [s]. *)
Fixpoint stripPrefix (p s : string) : option string :=
  match p, s with
  | EmptyString, _ => Some s
  | String a p', String b s' => if Ascii.eqb a b then stripPrefix p' s' else None
  | String _ _, EmptyString => None
  end.

(** Skip the leading digits; returns how many there were, and the rest. *)
Fixpoint skipDigits (s : string) : nat * string :=
  match s with
  | String c s' =>
      if isDigit c then let '(n, r) := skipDigits s' in (S n, r) else (0, s)
  | EmptyString => (0, s)
  end.

(** Split at the first quote: the text before it, and the text after it.
    [None] when there is no quote. *)
Fixpoint untilQuote (s : string) : option (string * string) :=
  match s with
  | EmptyString => None
  | String c s' =>
      if isQuote c then Some (EmptyString, s')
      else '(g, r) ← untilQuote s'; Some (String c g, r)
  end.

(** A match of the whole expression at the front of [s]: the captured
    group and the text after the match. *)
Definition matchAt (s : string) : option (string * string) :=
  s1 ← stripPrefix ("label=" +:+ dq +:+ "block ") s;
  let '(n, s2) := skipDigits s1 in
  if (n =? 0) then None else
  s3 ← stripPrefix " " s2;
  '(g, r) ← untilQuote s3;
  if isEmpty g then None else Some (g, r).

(** Leftmost, non-overlapping replacement.  [skip] counts the characters
    of the current match that are still to be passed over. *)
Fixpoint replaceFrom (skip : nat) (s : string) : string :=
  match s with
  | EmptyString => EmptyString
  | String c s' =>
      match skip with
      | S k => replaceFrom k s'
      | O =>
          match matchAt s with
          | Some (g, r) =>
              "label=" +:+ dq +:+ g +:+ dq
                +:+ replaceFrom (String.length s - String.length r - 1) s'
          | None => String c (replaceFrom 0 s')
          end
      end
  end.

Definition stripBlockPrefix (s : string) : string := replaceFrom 0 s.

End Cleanup.

(** ** The syntax tree, as far as the program inspects it ([go/ast]) *)

Inductive Expr : Type :=
| BasicLit (Value : string)
| Ident (Name : string)
| BinaryExpr (X : Expr) (Op : string) (Y : Expr)
| CallExpr (Fun : Expr) (Args : list Expr)
| SelectorExpr (X : Expr) (Sel : string)
| ParenExpr (X : Expr)
| OtherExpr (goType : string).
(** [Op] is the operator as [Op.String()] prints it.  [OtherExpr] stands for
    every other kind of expression and carries what [%T] prints for it
    (for instance ["*ast.UnaryExpr"]). *)

Record ValueSpec : Type := { Names : list string; Values : list Expr }.

Inductive Spec : Type :=
| SValueSpec (v : ValueSpec)
| STypeSpec
| SImportSpec.

Inductive Decl : Type :=
| GenDecl (Specs : list Spec)
| FuncDecl
| BadDecl.

Inductive BranchTok : Type := BREAK | CONTINUE | GOTO | FALLTHROUGH.

Inductive Node : Type :=
| NValueSpec (v : ValueSpec)
| DeclStmt (d : Decl)
| AssignStmt (Lhs Rhs : list Expr)
| ReturnStmt (Results : list Expr)
| ExprStmt (X : Expr)
| IncDecStmt (X : Expr) (Tok : string)
| NExpr (e : Expr)
| IfStmt (Cond : Expr) (hasElse : bool)
| ForStmt (Cond : option Expr)
| BranchStmt (Tok : BranchTok)
| OtherNode (goType : string).
(** [NExpr e] is a block node that is an expression.  [hasElse] is
    [n.Else != nil].  A [for] without a condition has [Cond = nil].
    [OtherNode] stands for every other kind of node, with its [%T] name. *)

(** ** The control-flow graph ([golang.org/x/tools/go/cfg]) *)

Inductive BlockKind : Type :=
| KindInvalid | KindUnreachable | KindBody
| KindForBody | KindForDone | KindForLoop | KindForPost
| KindIfDone | KindIfElse | KindIfThen
| KindLabel
| KindRangeBody | KindRangeDone | KindRangeLoop
| KindSelectCaseBody | KindSelectDone | KindSelectAfterCase
| KindSwitchCaseBody | KindSwitchDone | KindSwitchNextCase.

(** A successor is a pointer to a block.  Through the pointer the program
    reads the block's [Index] and [Kind] only; everything else it reads from
    [cg.Blocks[succ.Index]]. *)
Record SuccRef : Type := { sIndex : Z; sKind : BlockKind }.

(** [BString] is what the library's [Block.String()] returns. *)
Record Block : Type := {
  Nodes : list Node;
  Succs : list SuccRef;
  Index : Z;
  Live : bool;
  BString : string
}.

Record CFG : Type := { Blocks : list Block }.

(** [cg.Blocks[i]]: panics when [i] is out of range. *)
Definition blockAt (cg : CFG) (i : Z) : result Block :=
  if decide (0 ≤ i < Z.of_nat (length (Blocks cg)))%Z
  then match Blocks cg !! Z.to_nat i with
       | Some b => Ok b
       | None => Panic
       end
  else Panic.

(** [block.Succs[k]] *)
Definition succAt (block : Block) (k : nat) : result SuccRef :=
  match Succs block !! k with
  | Some s => Ok s
  | None => Panic
  end.

(** ** [getValue] *)

Definition typeName (e : Expr) : string :=
  match e with
  | BasicLit _ => "*ast.BasicLit"
  | Ident _ => "*ast.Ident"
  | BinaryExpr _ _ _ => "*ast.BinaryExpr"
  | CallExpr _ _ => "*ast.CallExpr"
  | SelectorExpr _ _ => "*ast.SelectorExpr"
  | ParenExpr _ => "*ast.ParenExpr"
  | OtherExpr t => t
  end.

Fixpoint getValue (expr : Expr) : string :=
  match expr with
  | BasicLit v => v
  | Ident name => name
  | BinaryExpr x op y => getValue x +:+ " " +:+ op +:+ " " +:+ getValue y
  | CallExpr (Ident name) _ => name
  | CallExpr _ _ => "function call"
  | SelectorExpr x sel => getValue x +:+ "." +:+ sel
  | _ => typeName expr
  end.

(** [getValue] of a possibly nil expression: [%T] of nil prints [<nil>]. *)
Definition getValueOpt (expr : option Expr) : string :=
  match expr with
  | Some e => getValue e
  | None => "<nil>"
  end.

(** ** The traversal state of [genDot] *)

(** [dot] is the document built so far; [variables] is the variable trace;
    [inputVars] counts, per name, its declarations and assignments;
    [modifiedVars] and [controlVars] are the sets M and C. *)
Record State : Type := {
  dot : string;
  variables : gmap string (list string);
  inputVars : gmap string nat;
  modifiedVars : gset string;
  controlVars : gset string
}.

Definition initState : State :=
  {| dot := "digraph G {" +:+ nl;
     variables := ∅; inputVars := ∅; modifiedVars := ∅; controlVars := ∅ |}.

(** [dot += s] *)
Definition emit (s : string) (st : State) : State :=
  {| dot := dot st +:+ s; variables := variables st; inputVars := inputVars st;
     modifiedVars := modifiedVars st; controlVars := controlVars st |}.

(** [variables[name] = append(variables[name], nodeID)] *)
Definition recordVar (name nodeID : string) (st : State) : State :=
  {| dot := dot st;
     variables := <[name := default [] (variables st !! name) ++ [nodeID]]> (variables st);
     inputVars := inputVars st;
     modifiedVars := modifiedVars st; controlVars := controlVars st |}.

(** [inputVars[name]++] *)
Definition incInput (name : string) (st : State) : State :=
  {| dot := dot st; variables := variables st;
     inputVars := <[name := S (default 0 (inputVars st !! name))]> (inputVars st);
     modifiedVars := modifiedVars st; controlVars := controlVars st |}.

(** [modifiedVars[name] = true] *)
Definition markModified (name : string) (st : State) : State :=
  {| dot := dot st; variables := variables st; inputVars := inputVars st;
     modifiedVars := {[name]} ∪ modifiedVars st; controlVars := controlVars st |}.

(** [controlVars[name] = true] *)
Definition markControl (name : string) (st : State) : State :=
  {| dot := dot st; variables := variables st; inputVars := inputVars st;
     modifiedVars := modifiedVars st; controlVars := {[name]} ∪ controlVars st |}.

(** ** The statements of the document *)

Module Fmt.

(** ["  %s [label=\"%s\"];\n"] *)
Definition nodeLine (nodeID label : string) : string :=
  "  " +:+ nodeID +:+ " [label=" +:+ dq +:+ label +:+ dq +:+ "];" +:+ nl.

(** ["  %s -> %s [label=\"%s\" color=\"%s\"];\n"] *)
Definition branchEdge (src dst label color : string) : string :=
  "  " +:+ src +:+ " -> " +:+ dst +:+ " [label=" +:+ dq +:+ label +:+ dq
    +:+ " color=" +:+ dq +:+ color +:+ dq +:+ "];" +:+ nl.

(** ["  %s -> %s [label=\"%s\"];\n"] *)
Definition labelEdge (src dst label : string) : string :=
  "  " +:+ src +:+ " -> " +:+ dst +:+ " [label=" +:+ dq +:+ label +:+ dq +:+ "];" +:+ nl.

(** ["  %s -> %s;\n"] *)
Definition seqEdge (src dst : string) : string :=
  "  " +:+ src +:+ " -> " +:+ dst +:+ ";" +:+ nl.

(** ["  %s -> %s [color=\"%s\"];\n"] *)
Definition colorEdge (src dst color : string) : string :=
  "  " +:+ src +:+ " -> " +:+ dst +:+ " [color=" +:+ dq +:+ color +:+ dq +:+ "];" +:+ nl.

(** ["  %s -> %s [color=\"%s\" label=\"%s\" fontsize=14 decorate=true];\n"] *)
Definition decoratedEdge (src dst color label : string) : string :=
  "  " +:+ src +:+ " -> " +:+ dst +:+ " [color=" +:+ dq +:+ color +:+ dq
    +:+ " label=" +:+ dq +:+ label +:+ dq +:+ " fontsize=14 decorate=true];" +:+ nl.

(** ["  %s -> %s [label=\"%s\" style=dotted fontsize=26];\n"] *)
Definition traceEdge (src dst varName : string) : string :=
  "  " +:+ src +:+ " -> " +:+ dst +:+ " [label=" +:+ dq +:+ varName +:+ dq
    +:+ " style=dotted fontsize=26];" +:+ nl.

(** ["block_%d"] and ["%s_node_%d"] *)
Definition blockName (index : Z) : string := "block_" +:+ itoa index.
Definition nodeName (blockID : string) (i : nat) : string :=
  blockID +:+ "_node_" +:+ itoa (Z.of_nat i).

(** ["%s %s %s"] *)
Definition binaryLabel (x : Expr) (op : string) (y : Expr) : string :=
  getValue x +:+ " " +:+ op +:+ " " +:+ getValue y.

(** ["%s(%s)"] with the arguments joined by [", "] *)
Definition callLabel (f : Expr) (args : list Expr) : string :=
  getValue f +:+ "(" +:+ join (getValue <$> args) ", " +:+ ")".

End Fmt.
Import Fmt.

(** ** [findNextBlockWithNodes] *)

(** The loop runs on: every step either visits a block for the first time,
    or removes an entry for an already visited block from the head of the
    queue, behind which only such entries stand before the first new one. *)
Definition unvisited (cg : CFG) (visited : gset Z) : nat :=
  length (filter (fun i : nat => Z.of_nat i ∉ visited) (seq 0 (length (Blocks cg)))).

Fixpoint stalePrefix (visited : gset Z) (queue : list Z) : nat :=
  match queue with
  | i :: q => if decide (i ∈ visited) then S (stalePrefix visited q) else 0
  | [] => 0
  end.

Definition inspect {A} (a : A) : {b : A | a = b} := exist _ a eq_refl.

(** The order in which the loop descends: fewer unvisited blocks, or as
    many and a shorter prefix. *)
Definition lexlt (a b : nat * nat) : Prop :=
  a.1 < b.1 ∨ (a.1 = b.1 ∧ a.2 < b.2).

Definition lexlt_Acc (n1 : nat) :
  ∀ u, u < n1 → ∀ n2 p, p < n2 → Acc lexlt (u, p).
Proof.
  induction n1 as [|n1 IH1]; intros u Hu; [exfalso; lia|].
  induction n2 as [|n2 IH2]; intros p Hp; [exfalso; lia|].
  apply Acc_intro. intros [u' p'] Hlt.
  destruct (lt_dec u' u) as [Hlt1|Hge].
  - apply (IH1 u' ltac:(lia) (S p') p' ltac:(lia)).
  - destruct (Nat.eq_dec u' u) as [Heq|Hne].
    + subst u'. apply IH2. unfold lexlt in Hlt. simpl in Hlt. lia.
    + exfalso. unfold lexlt in Hlt. simpl in Hlt. lia.
Defined.

#[global] Instance lexlt_wf : WellFounded lexlt :=
  fun a => match a with
           | (u, p) => lexlt_Acc (S u) u (Nat.lt_succ_diag_r u)
                                 (S p) p (Nat.lt_succ_diag_r p)
           end.

Equations? bfs (cg : CFG) (visited : gset Z) (queue : list Z) : result (option Block)
  by wf (unvisited cg visited, stalePrefix visited queue) lexlt :=
bfs cg visited nil := Ok None;
bfs cg visited (cons currentIndex queue)
  with inspect (blockAt cg currentIndex) := {
  | exist _ Panic _ => Panic
  | exist _ (Ok currentBlock) Hb =>
      if decide (0 < length (Nodes currentBlock))
      then Ok (Some currentBlock)
      else bfs cg ({[currentIndex]} ∪ visited)
             (queue ++ filter (fun i => i ∉ {[currentIndex]} ∪ visited)
                         (sIndex <$> Succs currentBlock)) }.
Proof.
  unfold lexlt. cbn [fst snd].
  destruct (decide (currentIndex ∈ visited)) as [Hin|Hnin].
  - (* an entry for a block already visited: the counts stay, the prefix shrinks *)
    right. split.
    { unfold unvisited. f_equal. apply list_filter_iff. intros i. set_solver. }
    simpl. rewrite decide_True by done.
    apply Nat.lt_succ_r.
    clear -Hin. induction queue as [|y q IH]; simpl.
    + destruct (filter _ _) as [|z l] eqn:E; simpl; [lia|].
      assert (Hz : z ∈ z :: l) by left. rewrite <- E in Hz.
      apply list_elem_of_filter in Hz as [Hz _].
      rewrite decide_False by done. lia.
    + destruct (decide (y ∈ {[currentIndex]} ∪ visited)),
               (decide (y ∈ visited)); try lia; set_solver.
  - (* a block visited for the first time *)
    left. unfold blockAt in Hb.
    case_decide as Hr; [|done]. unfold unvisited.
    assert (Hx : Z.to_nat currentIndex ∈ seq 0 (length (Blocks cg)))
      by (apply elem_of_seq; lia).
    revert Hx. generalize (seq 0 (length (Blocks cg))). intros l Hx.
    assert (Hle : ∀ l', length (filter (fun i : nat => Z.of_nat i ∉ {[currentIndex]} ∪ visited) l')
                        ≤ length (filter (fun i : nat => Z.of_nat i ∉ visited) l')).
    { intros l'. induction l' as [|z l' IH']; [done|].
      rewrite !filter_cons. repeat case_decide; simpl; try lia. set_solver. }
    induction l as [|y l IH]; [by apply elem_of_nil in Hx|].
    rewrite !filter_cons. apply elem_of_cons in Hx as [<-|Hx].
    + rewrite Z2Nat.id by lia.
      rewrite decide_False by set_solver. rewrite decide_True by done.
      simpl. specialize (Hle l). lia.
    + specialize (IH Hx). repeat case_decide; simpl; try lia. set_solver.
Qed.

(** The function of the source: the search starts from [startIndex] with
    nothing visited.  [Ok None] is Go's [nil]. *)
Definition findNextBlockWithNodes (cg : CFG) (startIndex : Z) : result (option Block) :=
  bfs cg ∅ [startIndex].

(** ** [genDot]: classification of one node *)

(** The names of a [ValueSpec]; [absent] is the marker for a name without
    a value (["nul"] for a bare [ValueSpec] node, ["nil"] under [DeclStmt]). *)
Fixpoint declNames (absent nodeID : string) (values : list Expr) (j : nat)
    (names : list string) (st : State) : State :=
  match names with
  | [] => st
  | name :: rest =>
      let value := match values !! j with
                   | Some e => getValue e
                   | None => absent
                   end in
      declNames absent nodeID values (S j) rest
        (incInput name
           (recordVar name nodeID
              (emit (nodeLine nodeID (name +:+ " = " +:+ value)) st)))
  end.

Definition isBinaryExpr (e : Expr) : bool :=
  match e with
  | BinaryExpr _ _ _ => true
  | _ => false
  end.

(** What the body of the [AssignStmt] loop does for an identifier on the
    left, at position [j].  The last step reads [n.Rhs[j]] unguarded. *)
Definition assignIdent (nodeID : string) (rhs : list Expr) (j : nat)
    (name : string) (st : State) : result State :=
  let value := match rhs !! j with
               | Some e => getValue e
               | None => "nil"
               end in
  let st1 := incInput name
               (recordVar name nodeID
                  (emit (nodeLine nodeID (name +:+ " = " +:+ value)) st)) in
  match rhs !! j with
  | Some e => Ok (if isBinaryExpr e then markModified name st1 else st1)
  | None => Panic
  end.

(** [for j, lhs := range n.Lhs { if ident, ok := lhs.( *ast.Ident); ok { ... } }] *)
Fixpoint assignLhs (nodeID : string) (rhs : list Expr) (j : nat)
    (lhs : list Expr) (st : State) : result State :=
  match lhs with
  | [] => Ok st
  | Ident name :: rest =>
      st' ← assignIdent nodeID rhs j name st;
      assignLhs nodeID rhs (S j) rest st'
  | _ :: rest => assignLhs nodeID rhs (S j) rest st
  end.

(** The loop of the [ReturnStmt] case: the values, and the trace entries. *)
Definition returnResults (nodeID : string) (results : list Expr) (st : State)
    : list string * State :=
  foldl (fun '(values, st) r =>
           let value := getValue r in
           (values ++ [value], recordVar value nodeID st))
        ([], st) results.

(** A node that is an expression. *)
Definition classifyExpr (nodeID : string) (e : Expr) (st : State) : State :=
  match e with
  | BinaryExpr x op y =>
      markControl (getValue y)
        (markControl (getValue x)
           (emit (nodeLine nodeID (binaryLabel x op y)) st))
  | CallExpr f args => emit (nodeLine nodeID (callLabel f args)) st
  | SelectorExpr x sel => emit (nodeLine nodeID (getValue x +:+ "." +:+ sel)) st
  | ParenExpr (BinaryExpr x op y) => emit (nodeLine nodeID (binaryLabel x op y)) st
  | ParenExpr x => emit (nodeLine nodeID (getValue x)) st
  | _ => emit (nodeLine nodeID ("(Unhandled): " +:+ typeName e)) st
  end.

(** The edge from an [if] or [for] node to the [k]-th successor of its
    block: [block.Succs[k]] and [cg.Blocks[...]] are both unguarded. *)
Definition branchTo (cg : CFG) (block : Block) (nodeID : string) (k : nat)
    (color : string) (st : State) : result State :=
  succ ← succAt block k;
  target ← blockAt cg (sIndex succ);
  Ok (emit (branchEdge nodeID (blockName (sIndex succ)) (BString target) color) st).

(** One iteration of the type switch.  Returns the new [loopID]. *)
Definition classifyNode (cg : CFG) (block : Block) (nodeID : string)
    (node : Node) (loopID : string) (st : State) : result (string * State) :=
  match node with
  | NValueSpec v =>
      Ok (loopID, declNames "nul" nodeID (Values v) 0 (Names v) st)
  | DeclStmt (GenDecl (SValueSpec v :: _)) =>
      Ok (loopID, declNames "nil" nodeID (Values v) 0 (Names v) st)
  | DeclStmt _ => Panic
  | AssignStmt lhs rhs =>
      st' ← assignLhs nodeID rhs 0 lhs st; Ok (loopID, st')
  | ReturnStmt results =>
      let '(values, st1) := returnResults nodeID results st in
      Ok (loopID, emit (nodeLine nodeID ("Return: " +:+ join values ", ")) st1)
  | ExprStmt (BinaryExpr x op y) =>
      Ok (loopID, emit (nodeLine nodeID (binaryLabel x op y)) st)
  | ExprStmt (CallExpr f args) =>
      Ok (loopID, emit (nodeLine nodeID (escapeQuotes (callLabel f args))) st)
  | ExprStmt x =>
      Ok (loopID, emit (nodeLine nodeID ("(Unhandled Expr): " +:+ typeName x)) st)
  | IncDecStmt (Ident varName) tok =>
      Ok (loopID,
          markModified varName
            (recordVar varName nodeID
               (emit (nodeLine nodeID (varName +:+ " " +:+ tok)) st)))
  | IncDecStmt _ _ => Panic
  | NExpr e => Ok (loopID, classifyExpr nodeID e st)
  | IfStmt c hasElse =>
      let cond := getValue c in
      let st1 := markControl cond (emit (nodeLine nodeID ("if " +:+ cond)) st) in
      st2 ← branchTo cg block nodeID 0 "yellow" st1;
      if hasElse
      then st3 ← branchTo cg block nodeID 1 "red" st2; Ok (loopID, st3)
      else Ok (loopID, st2)
  | ForStmt c =>
      let cond := getValueOpt c in
      let st1 := markControl cond (emit (nodeLine nodeID ("for " +:+ cond)) st) in
      st2 ← branchTo cg block nodeID 0 "yellow" st1;
      st3 ← branchTo cg block nodeID 1 "red" st2;
      Ok (nodeID, st3)
  | BranchStmt CONTINUE =>
      Ok (loopID,
          emit (labelEdge nodeID loopID "continue")
            (emit (nodeLine nodeID "continue") st))
  | BranchStmt BREAK =>
      Ok (loopID,
          emit (labelEdge nodeID loopID "break")
            (emit (nodeLine nodeID "break") st))
  | BranchStmt _ => Ok (loopID, st)
  | OtherNode t =>
      Ok (loopID, emit (nodeLine nodeID ("(Unhandled): " +:+ t)) st)
  end.

(** ** [genDot]: one block *)

(** The three variables declared at the top of the block loop's body. *)
Record Locals : Type := {
  prevNodeID : string;
  lastNodeID : string;
  loopID : string
}.

Definition freshLocals : Locals :=
  {| prevNodeID := EmptyString; lastNodeID := EmptyString; loopID := EmptyString |}.

(** [for i, node := range block.Nodes { ... }] *)
Fixpoint nodesLoop (cg : CFG) (block : Block) (blockID : string) (i : nat)
    (nodes : list Node) (loc : Locals) (st : State) : result (Locals * State) :=
  match nodes with
  | [] => Ok (loc, st)
  | node :: rest =>
      let nodeID := nodeName blockID i in
      '(loopID', st1) ← classifyNode cg block nodeID node (loopID loc) st;
      let st2 := if isEmpty (prevNodeID loc) then st1
                 else emit (seqEdge (prevNodeID loc) nodeID) st1 in
      nodesLoop cg block blockID (S i) rest
        {| prevNodeID := nodeID; lastNodeID := nodeID; loopID := loopID' |} st2
  end.

Definition succColor (k : BlockKind) : string :=
  match k with
  | KindIfThen | KindForBody => "yellow"
  | KindIfDone | KindIfElse | KindForDone => "red"
  | _ => "black"
  end.

(** The edge to the first node of block [b], labelled when the block's
    text marks it as a decision point. *)
Definition anchoredEdge (lastNodeID : string) (index : Z) (color : string)
    (succBlockLabel : string) : string :=
  let firstSuccNodeID := blockName index +:+ "_node_0" in
  if contains succBlockLabel "(IfDone)" || contains succBlockLabel "(IfThen)"
     || contains succBlockLabel "(For"
  then decoratedEdge lastNodeID firstSuccNodeID color succBlockLabel
  else colorEdge lastNodeID firstSuccNodeID color.

(** One iteration of [for _, succ := range block.Succs { ... }]. *)
Definition succEdge (cg : CFG) (lastNodeID : string) (succ : SuccRef)
    (st : State) : result State :=
  let succID := blockName (sIndex succ) in
  let color := succColor (sKind succ) in
  if isEmpty lastNodeID then Ok st else
  succBlock ← blockAt cg (sIndex succ);
  if decide (0 < length (Nodes succBlock))
  then Ok (emit (anchoredEdge lastNodeID (sIndex succ) color (BString succBlock)) st)
  else
    nextBlockWithNodes ← findNextBlockWithNodes cg (sIndex succ);
    match nextBlockWithNodes with
    | Some next =>
        Ok (emit (anchoredEdge lastNodeID (Index next) color (BString next)) st)
    | None => Ok (emit (colorEdge lastNodeID succID color) st)
    end.

Fixpoint succsLoop (cg : CFG) (lastNodeID : string) (succs : list SuccRef)
    (st : State) : result State :=
  match succs with
  | [] => Ok st
  | succ :: rest =>
      st' ← succEdge cg lastNodeID succ st;
      succsLoop cg lastNodeID rest st'
  end.

(** The body of [for _, block := range cg.Blocks { ... }]. *)
Definition blockBody (cg : CFG) (block : Block) (st : State) : result State :=
  if Live block then
    let blockID := blockName (Index block) in
    '(loc, st1) ← nodesLoop cg block blockID 0 (Nodes block) freshLocals st;
    succsLoop cg (lastNodeID loc) (Succs block) st1
  else Ok st.

Fixpoint blocksLoop (cg : CFG) (blocks : list Block) (st : State) : result State :=
  match blocks with
  | [] => Ok st
  | block :: rest =>
      st' ← blockBody cg block st;
      blocksLoop cg rest st'
  end.

(** The first loop of [genDot]: the traversal that classifies every node of
    every live block. *)
Definition traverse (cg : CFG) : result State :=
  blocksLoop cg (Blocks cg) initState.

(** ** [genDot]: the trace edges *)

(** The order in which one [range] over a map visits its keys.  The run
    time is free to choose it; all that is known is that every key is
    visited once. *)
Record MapOrder : Type := {
  rangeKeys : list string → list string;
  rangeKeys_perm : ∀ l, rangeKeys l ≡ₚ l
}.

Definition mapKeys {V} (m : gmap string V) : list string := (map_to_list m).*1.

(** [for i := 1; i < len(nodes); i++ { ... nodes[i-1], nodes[i] ... }] *)
Fixpoint tracePairs (varName : string) (nodes : list string) : string :=
  match nodes with
  | a :: (b :: _) as rest => traceEdge a b varName +:+ tracePairs varName rest
  | _ => EmptyString
  end.

(** The body of [for varName, nodes := range variables { ... }]. *)
Definition traceEdges (varName : string) (nodes : list string) : string :=
  if decide (1 < length nodes) then tracePairs varName nodes else EmptyString.

Definition traceLoop (ord : MapOrder) (variables : gmap string (list string))
    (dot : string) : string :=
  foldl (fun dot varName =>
           dot +:+ traceEdges varName (default [] (variables !! varName)))
        dot (rangeKeys ord (mapKeys variables)).

(** ** [genDot]: Chepin's metric *)

(** The four sets as they stand when the score is computed: P (with the
    counts), M, C and T. *)
Record Roles : Type := {
  inputSet : gmap string nat;
  modifiedSet : gset string;
  controlSet : gset string;
  unusedSet : gset string
}.

(** [for varName := range controlVars { delete(inputVars, varName); delete(modifiedVars, varName) }] *)
Definition removeControl (keys : list string)
    (acc : gmap string nat * gset string) : gmap string nat * gset string :=
  foldl (fun '(iv, mv) varName => (delete varName iv, mv ∖ {[varName]})) acc keys.

(** [for varName := range modifiedVars { delete(inputVars, varName) }] *)
Definition removeModified (keys : list string) (iv : gmap string nat)
    : gmap string nat :=
  foldl (fun iv varName => delete varName iv) iv keys.

(** [for varName := range inputVars { if inputVars[varName] == 1 { ... } }] *)
Definition splitUnused (keys : list string)
    (acc : gmap string nat * gset string) : gmap string nat * gset string :=
  foldl (fun '(iv, uv) varName =>
           if decide (default 0 (iv !! varName) = 1)
           then (delete varName iv, {[varName]} ∪ uv)
           else (iv, uv))
        acc keys.

Definition reconcile (ord : MapOrder) (st : State) : Roles :=
  let '(iv1, mv1) :=
    removeControl (rangeKeys ord (elements (controlVars st)))
                  (inputVars st, modifiedVars st) in
  let iv2 := removeModified (rangeKeys ord (elements mv1)) iv1 in
  let '(iv3, uv) := splitUnused (rangeKeys ord (mapKeys iv2)) (iv2, ∅) in
  {| inputSet := iv3; modifiedSet := mv1; controlSet := controlVars st;
     unusedSet := uv |}.

(** [float64(P) + 2*float64(M) + 3*float64(C) + 0.5*float64(T)].  The sizes
    are far below 2^52, where every integer and every half is a [float64]
    and the sum is exact, so the score is given as a rational. *)
Definition chepin (P M C T : nat) : Q :=
  (inject_Z (Z.of_nat P) + 2 * inject_Z (Z.of_nat M)
   + 3 * inject_Z (Z.of_nat C) + (1 # 2) * inject_Z (Z.of_nat T))%Q.

Definition chepinOf (r : Roles) : Q :=
  chepin (size (inputSet r)) (size (modifiedSet r)) (size (controlSet r))
         (size (unusedSet r)).

(** ** [genDot]: cyclomatic complexity *)

(** The counting loop; the pair is [(numEdges, numNodes)].  The counters are
    Go [int]s.  The loop adds one per block and one per successor it could
    step through, so a run that ends has counted far fewer than 2^63 of
    them: the sums never wrap and are given in [Z]. *)
Definition countLive (blocks : list Block) : Z * Z :=
  foldl (fun '(numEdges, numNodes) block =>
           if Live block
           then ((numEdges + Z.of_nat (length (Succs block)))%Z, (numNodes + 1)%Z)
           else (numEdges, numNodes))
        (0%Z, 0%Z) blocks.

(** ** [genDot] *)

(** What one call produces: the returned document, and the values it
    prints on the way (the four sets, the Chepin score, the cyclomatic
    complexity with its two counts). *)
Record Output : Type := {
  document : string;
  roles : Roles;
  chepinScore : Q;
  cyclomaticComplexity : Z;
  numEdges : Z;
  numNodes : Z
}.

Definition genDot (ord : MapOrder) (cg : CFG) : result Output :=
  st ← traverse cg;
  let dot1 := traceLoop ord (variables st) (dot st) in
  let r := reconcile ord st in
  let '(nEdges, nNodes) := countLive (Blocks cg) in
  let dot2 := Cleanup.stripBlockPrefix dot1 in
  Ok {| document := dot2 +:+ "}" +:+ nl;
        roles := r;
        chepinScore := chepinOf r;
        cyclomaticComplexity := (nEdges - nNodes + 2)%Z;
        numEdges := nEdges;
        numNodes := nNodes |}.

(** Two orders a run may see. *)
Program Definition inOrder : MapOrder := {| rangeKeys := fun l => l |}.
Next Obligation. done. Qed.

Program Definition reversed : MapOrder := {| rangeKeys := fun l => reverse l |}.
Next Obligation. intros l. apply reverse_Permutation. Qed.

(** ** The reconciliation, in the specification's words *)

(** Control members leave the input and the modified set; modified members
    leave the input set; what is left of the input set with a count of one
    moves to the unused set. *)
Definition reconciled (st : State) : Roles :=
  let C := controlVars st in
  let M := modifiedVars st ∖ C in
  let rest := filter (fun kv : string * nat => (fst kv ∉ C) ∧ (fst kv ∉ M)) (inputVars st) in
  {| inputSet := filter (fun kv : string * nat => snd kv ≠ 1) rest;
     modifiedSet := M;
     controlSet := C;
     unusedSet := dom (filter (fun kv : string * nat => snd kv = 1) rest) |}.

(** ** Graph notions of the specification *)

(** The live blocks, E (the successors they have in total) and N (how many
    they are). *)
Definition liveBlocks (cg : CFG) : list Block :=
  filter (fun b => Live b = true) (Blocks cg).

Definition liveEdges (cg : CFG) : Z :=
  foldr (fun b acc => (Z.of_nat (length (Succs b)) + acc)%Z) 0%Z (liveBlocks cg).

Definition liveNodes (cg : CFG) : Z := Z.of_nat (length (liveBlocks cg)).

(** The successor graph: [j] is a successor of the block at [i]. *)
Definition succStep (cg : CFG) (i j : Z) : Prop :=
  ∃ b s, blockAt cg i = Ok b ∧ s ∈ Succs b ∧ sIndex s = j.

Definition inRange (cg : CFG) (i : Z) : bool :=
  bool_decide (0 ≤ i < Z.of_nat (length (Blocks cg)))%Z.

(** Every successor is a block of the graph. *)
Definition succsInRange (cg : CFG) : bool :=
  forallb (fun b => forallb (fun s => inRange cg (sIndex s)) (Succs b)) (Blocks cg).

(** A function without branches or loops: the entry block is block 0, the
    live blocks are the ones reachable from it, none of them has two
    successors, and none of them lies on a cycle. *)
Record noBranchNoLoop (cg : CFG) : Prop := {
  nbl_entry : is_Ok (blockAt cg 0);
  nbl_range : succsInRange cg = true;
  nbl_live : ∀ i b, blockAt cg i = Ok b → (Live b = true ↔ rtc (succStep cg) 0%Z i);
  nbl_nobranch : ∀ i b, blockAt cg i = Ok b → Live b = true → length (Succs b) ≤ 1;
  nbl_noloop : ∀ i b, blockAt cg i = Ok b → Live b = true → ¬ tc (succStep cg) i i
}.

(** ** The identifiers on the left of an assignment *)

Definition isIdent (e : Expr) : bool :=
  match e with
  | Ident _ => true
  | _ => false
  end.

(** The identifiers among the left-hand sides, each with its position. *)
Fixpoint identsFrom (j : nat) (lhs : list Expr) : list (nat * string) :=
  match lhs with
  | [] => []
  | Ident name :: rest => (j, name) :: identsFrom (S j) rest
  | _ :: rest => identsFrom (S j) rest
  end.

(** The loop body run for these identifiers alone. *)
Fixpoint assignIdents (nodeID : string) (rhs : list Expr)
    (idents : list (nat * string)) (st : State) : result State :=
  match idents with
  | [] => Ok st
  | (j, name) :: rest =>
      st' ← assignIdent nodeID rhs j name st;
      assignIdents nodeID rhs rest st'
  end.

(** The value of a run that is known to end. *)
Definition fromOk {A} (d : A) (r : result A) : A :=
  match r with
  | Ok a => a
  | Panic => d
  end.

(** At most one variable has two or more recorded occurrences. *)
Definition atMostOneChain (variables : gmap string (list string)) : Prop :=
  ∀ k1 k2 l1 l2, variables !! k1 = Some l1 → variables !! k2 = Some l2 →
    1 < length l1 → 1 < length l2 → k1 = k2.

(** ** Positions in the graph *)

(** The block at position [i] is live; the number of its successors; its
    first successor. *)
Definition isLive (cg : CFG) (i : Z) : bool :=
  match blockAt cg i with
  | Ok b => Live b
  | Panic => false
  end.

Definition degree (cg : CFG) (i : Z) : nat :=
  match blockAt cg i with
  | Ok b => length (Succs b)
  | Panic => 0
  end.

Definition next (cg : CFG) (i : Z) : Z :=
  match blockAt cg i with
  | Ok b => match Succs b with
            | s :: _ => sIndex s
            | [] => 0%Z
            end
  | Panic => 0%Z
  end.

Definition liveIdx (cg : CFG) : list Z :=
  filter (fun i => isLive cg i = true) (seqZ 0 (Z.of_nat (length (Blocks cg)))).

(** What the lookahead has established about the blocks it has visited:
    they hold no statement, and their successors are visited or queued. *)
Definition searched (cg : CFG) (visited : gset Z) (queue : list Z) : Prop :=
  ∀ v, v ∈ visited →
    (∀ b, blockAt cg v = Ok b → Nodes b = [])
    ∧ (∀ w, succStep cg v w → w ∈ visited ∨ w ∈ queue).

(** ** The graphs on which the program runs to the end *)

(** [block.Succs[k]] exists and names a block. *)
Definition succOK (cg : CFG) (block : Block) (k : nat) : bool :=
  match Succs block !! k with
  | Some s => inRange cg (sIndex s)
  | None => false
  end.

(** Every identifier on the left has an expression at its position. *)
Fixpoint assignOK (rhs : list Expr) (j : nat) (lhs : list Expr) : bool :=
  match lhs with
  | [] => true
  | Ident _ :: rest => bool_decide (j < length rhs) && assignOK rhs (S j) rest
  | _ :: rest => assignOK rhs (S j) rest
  end.

Definition nodeOK (cg : CFG) (block : Block) (node : Node) : bool :=
  match node with
  | DeclStmt (GenDecl (SValueSpec _ :: _)) => true
  | DeclStmt _ => false
  | AssignStmt lhs rhs => assignOK rhs 0 lhs
  | IncDecStmt (Ident _) _ => true
  | IncDecStmt _ _ => false
  | IfStmt _ hasElse => succOK cg block 0 && (negb hasElse || succOK cg block 1)
  | ForStmt _ => succOK cg block 0 && succOK cg block 1
  | _ => true
  end.


Definition blockOK (cg : CFG) (block : Block) : bool :=
  negb (Live block) || forallb (nodeOK cg block) (Nodes block).

Definition wellFormed (cg : CFG) : bool :=
  succsInRange cg && forallb (blockOK cg) (Blocks cg).

(** ** Sample graphs *)

Module Samples.

Definition succ (i : Z) (k : BlockKind) : SuccRef := {| sIndex := i; sKind := k |}.

(** [a = 0; b = 1; if n < 2 { return n }], as the graph builder delivers
    it: the test of the [if] is the last node of the entry block. *)
Definition fibHead : CFG := {| Blocks := [
  {| Nodes := [AssignStmt [Ident "a"] [BasicLit "0"];
               AssignStmt [Ident "b"] [BasicLit "1"];
               NExpr (BinaryExpr (Ident "n") "<" (BasicLit "2"))];
     Succs := [succ 1 KindIfThen; succ 2 KindIfDone];
     Index := 0; Live := true; BString := "block 0 (Body)" |};
  {| Nodes := [ReturnStmt [Ident "n"]];
     Succs := [];
     Index := 1; Live := true; BString := "block 1 (IfThen)" |};
  {| Nodes := [];
     Succs := [];
     Index := 2; Live := true; BString := "block 2 (IfDone)" |} ] |}.

(** The same body with the [if] delivered as a conditional node. *)
Definition fibHeadIf : CFG := {| Blocks := [
  {| Nodes := [AssignStmt [Ident "a"] [BasicLit "0"];
               AssignStmt [Ident "b"] [BasicLit "1"];
               IfStmt (BinaryExpr (Ident "n") "<" (BasicLit "2")) false];
     Succs := [succ 1 KindIfThen; succ 2 KindIfDone];
     Index := 0; Live := true; BString := "block 0 (Body)" |};
  {| Nodes := [ReturnStmt [Ident "n"]];
     Succs := [];
     Index := 1; Live := true; BString := "block 1 (IfThen)" |};
  {| Nodes := [];
     Succs := [];
     Index := 2; Live := true; BString := "block 2 (IfDone)" |} ] |}.

(** An empty function body: one block, no statement, no successor. *)
Definition emptyBody : CFG := {| Blocks := [
  {| Nodes := []; Succs := [];
     Index := 0; Live := true; BString := "block 0 (Body)" |} ] |}.

(** [for i < n { continue }; return i]: the loop node in block 0, the
    [continue] in the body block. *)
Definition loopContinue : CFG := {| Blocks := [
  {| Nodes := [ForStmt (Some (BinaryExpr (Ident "i") "<" (Ident "n")))];
     Succs := [succ 1 KindForBody; succ 2 KindForDone];
     Index := 0; Live := true; BString := "block 0 (ForLoop)" |};
  {| Nodes := [BranchStmt CONTINUE];
     Succs := [succ 0 KindForLoop];
     Index := 1; Live := true; BString := "block 1 (ForBody)" |};
  {| Nodes := [ReturnStmt [Ident "i"]];
     Succs := [];
     Index := 2; Live := true; BString := "block 2 (ForDone)" |} ] |}.

(** The same loop with a [break] in the body. *)
Definition loopBreak : CFG := {| Blocks := [
  {| Nodes := [ForStmt (Some (BinaryExpr (Ident "i") "<" (Ident "n")))];
     Succs := [succ 1 KindForBody; succ 2 KindForDone];
     Index := 0; Live := true; BString := "block 0 (ForLoop)" |};
  {| Nodes := [BranchStmt BREAK];
     Succs := [succ 2 KindForDone];
     Index := 1; Live := true; BString := "block 1 (ForBody)" |};
  {| Nodes := [ReturnStmt [Ident "i"]];
     Succs := [];
     Index := 2; Live := true; BString := "block 2 (ForDone)" |} ] |}.

(** [x = 1; x = 2; y = 1; y = 2]: two variables, each defined twice. *)
Definition twoChains : CFG := {| Blocks := [
  {| Nodes := [AssignStmt [Ident "x"] [BasicLit "1"];
               AssignStmt [Ident "x"] [BasicLit "2"];
               AssignStmt [Ident "y"] [BasicLit "1"];
               AssignStmt [Ident "y"] [BasicLit "2"]];
     Succs := [];
     Index := 0; Live := true; BString := "block 0 (Body)" |} ] |}.

(** [x = 1; x = 2; y = 1]: one variable defined twice. *)
Definition oneChain : CFG := {| Blocks := [
  {| Nodes := [AssignStmt [Ident "x"] [BasicLit "1"];
               AssignStmt [Ident "x"] [BasicLit "2"];
               AssignStmt [Ident "y"] [BasicLit "1"]];
     Succs := [];
     Index := 0; Live := true; BString := "block 0 (Body)" |} ] |}.


(** A statement whose successor is an empty block on a cycle of empty
    blocks. *)
Definition emptyCycle : CFG := {| Blocks := [
  {| Nodes := [ExprStmt (CallExpr (Ident "f") [])];
     Succs := [succ 1 KindBody];
     Index := 0; Live := true; BString := "block 0 (Body)" |};
  {| Nodes := []; Succs := [succ 2 KindBody; succ 2 KindBody];
     Index := 1; Live := true; BString := "block 1 (Label)" |};
  {| Nodes := []; Succs := [succ 1 KindBody];
     Index := 2; Live := true; BString := "block 2 (Label)" |} ] |}.

(** Straight-line code through a label: two blocks in a row. *)
Definition straight : CFG := {| Blocks := [
  {| Nodes := [AssignStmt [Ident "a"] [BasicLit "0"]];
     Succs := [succ 1 KindLabel];
     Index := 0; Live := true; BString := "block 0 (Body)" |};
  {| Nodes := [ReturnStmt [Ident "a"]];
     Succs := [];
     Index := 1; Live := true; BString := "block 1 (Label)" |};
  {| Nodes := [ReturnStmt []];
     Succs := [];
     Index := 2; Live := false; BString := "block 2 (Unreachable)" |} ] |}.

(** [a = 0; return a]: one assignment and one use of the same name. *)
Definition assignReturn : CFG := {| Blocks := [
  {| Nodes := [AssignStmt [Ident "a"] [BasicLit "0"];
               ReturnStmt [Ident "a"]];
     Succs := [];
     Index := 0; Live := true; BString := "block 0 (Body)" |} ] |}.

(** [x = 1; x = 2; s = p + q; t = x * x; i++; u = 0; n < 2; return u]:
    a name for each of the four sets, and a different number of names in
    each of the weighted ones. *)
Definition mixedRoles : CFG := {| Blocks := [
  {| Nodes := [AssignStmt [Ident "x"] [BasicLit "1"];
               AssignStmt [Ident "x"] [BasicLit "2"];
               AssignStmt [Ident "s"] [BinaryExpr (Ident "p") "+" (Ident "q")];
               AssignStmt [Ident "t"] [BinaryExpr (Ident "x") "*" (Ident "x")];
               IncDecStmt (Ident "i") "++";
               AssignStmt [Ident "u"] [BasicLit "0"];
               NExpr (BinaryExpr (Ident "n") "<" (BasicLit "2"));
               ReturnStmt [Ident "u"]];
     Succs := [];
     Index := 0; Live := true; BString := "block 0 (Body)" |} ] |}.

(** [p.x, a[i] = 1, 2]: no identifier on the left. *)
Definition fieldAssign : Node :=
  AssignStmt [SelectorExpr (Ident "p") "x"; OtherExpr "*ast.IndexExpr"]
             [BasicLit "1"; BasicLit "2"].

(** Runs on the samples. *)
Definition noOutput : Output :=
  {| document := EmptyString; roles := reconciled initState;
     chepinScore := 0%Q; cyclomaticComplexity := 0%Z;
     numEdges := 0%Z; numNodes := 0%Z |}.

Definition fibHeadState : State := fromOk initState (traverse fibHead).
Definition fibHeadOutput : Output := fromOk noOutput (genDot inOrder fibHead).
Definition oneChainState : State := fromOk initState (traverse oneChain).
Definition mixedRolesState : State := fromOk initState (traverse mixedRoles).
Definition oneChainOutput (ord : MapOrder) : Output :=
  fromOk noOutput (genDot ord oneChain).

End Samples.

(** ** What a step of the traversal may do to the state *)

(** [st'] carries on from [st]: the document has grown at its end, every
    trace has grown at its end, no count has dropped and no name has left
    the modified or the control set. *)
Definition extends (st st' : State) : Prop :=
  (∃ s, dot st' = dot st +:+ s)
  ∧ (∀ name, ∃ l, default [] (variables st' !! name)
                  = default [] (variables st !! name) ++ l)
  ∧ (∀ name, default 0 (inputVars st !! name) ≤ default 0 (inputVars st' !! name))
  ∧ modifiedVars st ⊆ modifiedVars st'
  ∧ controlVars st ⊆ controlVars st'.

(** Every name the traversal has classified. *)
Definition classifiedNames (st : State) : gset string :=
  dom (inputVars st) ∪ modifiedVars st ∪ controlVars st.

(** ** Characters of a string *)

(** Every character of [s] satisfies [p]. *)
Fixpoint allChars (p : ascii → bool) (s : string) : bool :=
  match s with
  | EmptyString => true
  | String c s' => p c && allChars p s'
  end.

Definition notUnderscore (c : ascii) : bool := negb (Ascii.eqb c "_").

(** Every double quote of [s] stands right after a backslash. *)
Fixpoint quotesEscaped (afterBackslash : bool) (s : string) : bool :=
  match s with
  | EmptyString => true
  | String c s' =>
      (negb (Ascii.eqb c "034"%char) || afterBackslash)
      && quotesEscaped (Ascii.eqb c "092"%char) s'
  end.

(** ** Counts and traces *)

(** Every counted name has been counted at least once, and has at least as
    many trace entries as its count. *)
Definition countsTraced (st : State) : Prop :=
  ∀ name n, inputVars st !! name = Some n →
    1 ≤ n ∧ n ≤ length (default [] (variables st !! name)).

(** ** Levels of the lookahead *)

(** What the search from [start] knows when the queue is [l1 ++ l2]: the
    entries of [l1] are [d] steps from [start] and those of [l2] one step
    more; every block fewer than [d] steps away has been visited, every
    block [d] steps away has been visited or waits in [l1]. *)
Definition levels (cg : CFG) (start : Z) (visited : gset Z) (d : nat)
    (l1 l2 : list Z) : Prop :=
  (∀ x, x ∈ l1 → nsteps (succStep cg) d start x)
  ∧ (∀ x, x ∈ l2 → nsteps (succStep cg) (S d) start x)
  ∧ (∀ m y, m < d → nsteps (succStep cg) m start y → y ∈ visited)
  ∧ (∀ y, nsteps (succStep cg) d start y → y ∈ visited ∨ y ∈ l1).


(** ** [printCFG]: the listing on standard output *)

(** What a call has written to standard output, and whether it has
    returned: a call that panics leaves what it had written before. *)
Record Printed : Type := { stdout : string; finished : bool }.

(** [fmt.Printf] of a line *)
Definition printf (s : string) : Printed := {| stdout := s; finished := true |}.

Definition panicked : Printed := {| stdout := EmptyString; finished := false |}.

(** [p] and then [q], unless [p] has panicked. *)
Definition andThen (p q : Printed) : Printed :=
  if finished p
  then {| stdout := stdout p +:+ stdout q; finished := finished q |}
  else p.

(** [for _, a := range l { f(a) }] *)
Fixpoint printAll {A} (f : A → Printed) (l : list A) : Printed :=
  match l with
  | [] => printf EmptyString
  | a :: rest => andThen (f a) (printAll f rest)
  end.

(** What [%s] prints for a [[]string]. *)
Definition sliceString (l : list string) : string := "[" +:+ join l " " +:+ "]".

(** What [%T] prints for a node. *)
Definition nodeTypeName (node : Node) : string :=
  match node with
  | NValueSpec _ => "*ast.ValueSpec"
  | DeclStmt _ => "*ast.DeclStmt"
  | AssignStmt _ _ => "*ast.AssignStmt"
  | ReturnStmt _ => "*ast.ReturnStmt"
  | ExprStmt _ => "*ast.ExprStmt"
  | IncDecStmt _ _ => "*ast.IncDecStmt"
  | NExpr e => typeName e
  | IfStmt _ _ => "*ast.IfStmt"
  | ForStmt _ => "*ast.ForStmt"
  | BranchStmt _ => "*ast.BranchStmt"
  | OtherNode t => t
  end.

(** [" -> Node: %s\n"], the shape of the lines for the handled nodes *)
Definition listingLine (text : string) : string := " -> Node: " +:+ text +:+ nl.

(** [for i, name := range valueSpec.Names { ... }] *)
Fixpoint printNames (values : list Expr) (i : nat) (names : list string) : Printed :=
  match names with
  | [] => printf EmptyString
  | name :: rest =>
      let value := match values !! i with
                   | Some e => getValue e
                   | None => "nil"
                   end in
      andThen (printf (listingLine (name +:+ " = " +:+ value)))
              (printNames values (S i) rest)
  end.

Definition printValueSpec (valueSpec : ValueSpec) : Printed :=
  printNames (Values valueSpec) 0 (Names valueSpec).

(** [for i, lhs := range assignStmt.Lhs { ... }]: the read of [Rhs[i]] is
    guarded here. *)
Fixpoint printLhs (rhs : list Expr) (i : nat) (lhs : list Expr) : Printed :=
  match lhs with
  | [] => printf EmptyString
  | Ident name :: rest =>
      let value := match rhs !! i with
                   | Some e => getValue e
                   | None => "nil"
                   end in
      andThen (printf (listingLine (name +:+ " = " +:+ value)))
              (printLhs rhs (S i) rest)
  | _ :: rest => printLhs rhs (S i) rest
  end.

Definition printAssignStmt (lhs rhs : list Expr) : Printed := printLhs rhs 0 lhs.

Definition printReturnStmt (results : list Expr) : Printed :=
  printf (" -> Return: " +:+ sliceString (getValue <$> results) +:+ nl).

Definition printBinaryExpr (x : Expr) (op : string) (y : Expr) : Printed :=
  printf (listingLine (getValue x +:+ " " +:+ op +:+ " " +:+ getValue y)).

Definition printCallExpr (f : Expr) (args : list Expr) : Printed :=
  printf (listingLine (getValue f +:+ "(" +:+ sliceString (getValue <$> args) +:+ ")")).

Definition printExpr (expr : Expr) : Printed :=
  match expr with
  | BinaryExpr x op y => printBinaryExpr x op y
  | CallExpr f args => printCallExpr f args
  | ParenExpr x => printf (listingLine ("(" +:+ getValue x +:+ ")"))
  | _ => printf (" -> Node (Unhandled Expr): " +:+ typeName expr +:+ nl)
  end.

(** [incDecStmt.X.( *ast.Ident)] is an unchecked type assertion. *)
Definition printIncDecStmt (x : Expr) (tok : string) : Printed :=
  match x with
  | Ident name => printf (listingLine (name +:+ " " +:+ tok))
  | _ => panicked
  end.

(** The type switch of [printCFG]. *)
Definition printNode (node : Node) : Printed :=
  match node with
  | DeclStmt (GenDecl (SValueSpec v :: _)) => printValueSpec v
  | DeclStmt _ => panicked
  | NValueSpec v => printValueSpec v
  | AssignStmt lhs rhs => printAssignStmt lhs rhs
  | ReturnStmt results => printReturnStmt results
  | ExprStmt x => printExpr x
  | NExpr (ParenExpr x) => printExpr x
  | IncDecStmt x tok => printIncDecStmt x tok
  | NExpr (BinaryExpr x op y) => printBinaryExpr x op y
  | NExpr (CallExpr f args) => printCallExpr f args
  | _ => printf (" -> Node (Unhandled): " +:+ nodeTypeName node +:+ nl)
  end.

Section Listing.

(** What the library's [String()] returns for the block a successor
    pointer leads to. *)
Variable succString : SuccRef → string.

Definition printSucc (succ : SuccRef) : Printed :=
  printf (" -> Successor: " +:+ succString succ +:+ nl).

(** The body of [for _, block := range cg.Blocks { ... }]: live or not,
    every block is printed. *)
Definition printBlock (block : Block) : Printed :=
  andThen (printf ("Block: " +:+ BString block +:+ nl))
    (andThen (printAll printNode (Nodes block))
             (printAll printSucc (Succs block))).

Definition printCFG (cg : CFG) : Printed := printAll printBlock (Blocks cg).

End Listing.

(** A node [printCFG] can print: its unchecked type assertions hold. *)
Definition printable (node : Node) : bool :=
  match node with
  | DeclStmt (GenDecl (SValueSpec _ :: _)) => true
  | DeclStmt _ => false
  | IncDecStmt (Ident _) _ => true
  | IncDecStmt _ _ => false
  | _ => true
  end.

(** The nodes for which [printCFG] and [genDot] are written to show the
    same text: declarations, assignments, increments and decrements, and
    binary tests, bare or in parentheses.  A bare [ValueSpec] is among them
    when each of its names has a value. *)
Definition sameText (node : Node) : bool :=
  match node with
  | NValueSpec v => bool_decide (length (Names v) ≤ length (Values v))
  | DeclStmt _ | AssignStmt _ _ | IncDecStmt _ _ => true
  | ExprStmt (BinaryExpr _ _ _) => true
  | NExpr (BinaryExpr _ _ _) => true
  | NExpr (ParenExpr (BinaryExpr _ _ _)) => true
  | _ => false
  end.

(** ** Further sample graphs *)

Module MoreSamples.

Import Samples.

(** The entry block of [fibHead]. *)
Definition fibEntry : Block :=
  {| Nodes := [AssignStmt [Ident "a"] [BasicLit "0"];
               AssignStmt [Ident "b"] [BasicLit "1"];
               NExpr (BinaryExpr (Ident "n") "<" (BasicLit "2"))];
     Succs := [succ 1 KindIfThen; succ 2 KindIfDone];
     Index := 0; Live := true; BString := "block 0 (Body)" |}.

Definition fibEntryState : State :=
  fromOk initState (blockBody fibHead fibEntry initState).

(** A statement, an empty block, and a statement behind it. *)
Definition returnBlock : Block :=
  {| Nodes := [ReturnStmt [Ident "a"]];
     Succs := [];
     Index := 2; Live := true; BString := "block 2 (Label)" |}.

Definition skipEmpty : CFG := {| Blocks := [
  {| Nodes := [AssignStmt [Ident "a"] [BasicLit "0"]];
     Succs := [succ 1 KindLabel];
     Index := 0; Live := true; BString := "block 0 (Body)" |};
  {| Nodes := [];
     Succs := [succ 2 KindLabel];
     Index := 1; Live := true; BString := "block 1 (Label)" |};
  returnBlock ] |}.

(** [return a; p.x++]: the increment is dead code. *)
Definition liveReturn : Block :=
  {| Nodes := [ReturnStmt [Ident "a"]];
     Succs := [];
     Index := 0; Live := true; BString := "block 0 (Body)" |}.

Definition deadIncrement : Block :=
  {| Nodes := [IncDecStmt (SelectorExpr (Ident "p") "x") "++"];
     Succs := [];
     Index := 1; Live := false; BString := "block 1 (Unreachable)" |}.

Definition deadCode : CFG := {| Blocks := [liveReturn; deadIncrement] |}.

(** The text of a block, as a stand-in for the library's [String()] of a
    successor. *)
Definition succName (s : SuccRef) : string := "block " +:+ itoa (sIndex s).

End MoreSamples.

(** * Properties *)
Section Reconcile.

Lemma removeControl_fst ks iv mv v :
  (removeControl ks (iv, mv)).1 !! v = if decide (v ∈ ks) then None else iv !! v.
Proof.
  revert iv mv. induction ks as [|k ks IH]; intros iv mv.
  - done.
  - change (removeControl (k :: ks) (iv, mv))
      with (removeControl ks (delete k iv, mv ∖ {[k]})).
    rewrite IH.
    destruct (decide (v = k)) as [->|Hne].
    + rewrite lookup_delete_eq. rewrite (decide_True (P := k ∈ k :: ks)) by left.
      by destruct (decide (k ∈ ks)).
    + rewrite lookup_delete_ne by done.
      destruct (decide (v ∈ ks)) as [Hin|Hnin].
      * rewrite decide_True; [done|by right].
      * rewrite decide_False; [done|]. rewrite elem_of_cons. tauto.
Qed.

Lemma removeControl_snd ks iv mv :
  (removeControl ks (iv, mv)).2 = mv ∖ list_to_set ks.
Proof.
  revert iv mv. induction ks as [|k ks IH]; intros iv mv.
  - simpl. set_solver.
  - change (removeControl (k :: ks) (iv, mv))
      with (removeControl ks (delete k iv, mv ∖ {[k]})).
    rewrite IH. set_solver.
Qed.

Lemma removeModified_lookup ks iv v :
  removeModified ks iv !! v = if decide (v ∈ ks) then None else iv !! v.
Proof.
  revert iv. induction ks as [|k ks IH]; intros iv.
  - done.
  - change (removeModified (k :: ks) iv) with (removeModified ks (delete k iv)).
    rewrite IH.
    destruct (decide (v = k)) as [->|Hne].
    + rewrite lookup_delete_eq. rewrite (decide_True (P := k ∈ k :: ks)) by left.
      by destruct (decide (k ∈ ks)).
    + rewrite lookup_delete_ne by done.
      destruct (decide (v ∈ ks)) as [Hin|Hnin].
      * rewrite decide_True; [done|by right].
      * rewrite decide_False; [done|]. rewrite elem_of_cons. tauto.
Qed.

Lemma splitUnused_cons k ks iv uv :
  splitUnused (k :: ks) (iv, uv)
  = splitUnused ks (if decide (default 0 (iv !! k) = 1)
                    then (delete k iv, {[k]} ∪ uv) else (iv, uv)).
Proof. done. Qed.

Lemma splitUnused_fst ks iv uv v :
  (splitUnused ks (iv, uv)).1 !! v
  = if decide (v ∈ ks ∧ iv !! v = Some 1) then None else iv !! v.
Proof.
  revert iv uv. induction ks as [|k ks IH]; intros iv uv.
  - done.
  - rewrite splitUnused_cons.
    destruct (decide (default 0 (iv !! k) = 1)) as [H1|H1]; rewrite IH.
    + assert (Hk : iv !! k = Some 1).
      { destruct (iv !! k) as [n|]; simpl in H1; [by subst|done]. }
      destruct (decide (v = k)) as [->|Hne].
      * rewrite lookup_delete_eq.
        rewrite (decide_True (P := k ∈ k :: ks ∧ _)) by (split; [left|done]).
        by case_decide.
      * rewrite lookup_delete_ne by done.
        apply decide_ext. rewrite elem_of_cons. naive_solver.
    + apply decide_ext. rewrite elem_of_cons.
      split; [naive_solver|]. intros [[->|?] Hv]; [|done].
      rewrite Hv in H1. done.
Qed.

Lemma splitUnused_snd ks iv uv v :
  v ∈ (splitUnused ks (iv, uv)).2 ↔ v ∈ uv ∨ (v ∈ ks ∧ iv !! v = Some 1).
Proof.
  revert iv uv. induction ks as [|k ks IH]; intros iv uv.
  - simpl. split; [by left|]. intros [?|[H _]]; [done|]. by apply not_elem_of_nil in H.
  - rewrite splitUnused_cons.
    destruct (decide (default 0 (iv !! k) = 1)) as [H1|H1]; rewrite IH.
    + assert (Hk : iv !! k = Some 1).
      { destruct (iv !! k) as [n|]; simpl in H1; [by subst|done]. }
      rewrite elem_of_union, elem_of_singleton, elem_of_cons.
      destruct (decide (v = k)) as [->|Hne].
      * naive_solver.
      * rewrite lookup_delete_ne by done. naive_solver.
    + rewrite elem_of_cons. split; [naive_solver|].
      intros [?|[[->|?] Hv]]; [by left| |by right].
      rewrite Hv in H1. done.
Qed.

(** The three loops compute the reconciliation, whatever the order in
    which the maps are ranged over. *)
Lemma reconcile_reconciled ord st : reconcile ord st = reconciled st.
Proof.
  unfold reconcile, reconciled.
  set (C := controlVars st).
  destruct (removeControl _ _) as [iv1 mv1] eqn:E1.
  assert (Hmv1 : mv1 = modifiedVars st ∖ C).
  { pose proof (removeControl_snd (rangeKeys ord (elements C)) (inputVars st) (modifiedVars st)) as H.
    rewrite E1 in H. simpl in H. rewrite H.
    apply set_eq. intros x. rewrite !elem_of_difference, elem_of_list_to_set.
    rewrite (rangeKeys_perm ord), elem_of_elements. done. }
  assert (Hiv1 : ∀ v, iv1 !! v = if decide (v ∈ C) then None else inputVars st !! v).
  { intros v.
    pose proof (removeControl_fst (rangeKeys ord (elements C)) (inputVars st) (modifiedVars st) v) as H.
    rewrite E1 in H. simpl in H. rewrite H.
    apply decide_ext. rewrite (rangeKeys_perm ord), elem_of_elements. done. }
  set (iv2 := removeModified _ iv1).
  assert (Hiv2 : ∀ v, iv2 !! v = if decide (v ∈ C ∨ v ∈ mv1) then None else inputVars st !! v).
  { intros v. unfold iv2. rewrite removeModified_lookup, Hiv1.
    destruct (decide (v ∈ rangeKeys ord (elements mv1))) as [Hin|Hnin].
    - rewrite (rangeKeys_perm ord), elem_of_elements in Hin.
      rewrite decide_True; [done|by right].
    - rewrite (rangeKeys_perm ord), elem_of_elements in Hnin.
      apply decide_ext. tauto. }
  destruct (splitUnused _ _) as [iv3 uv] eqn:E3.
  assert (Hkeys : ∀ v, v ∈ rangeKeys ord (mapKeys iv2) ↔ is_Some (iv2 !! v)).
  { intros v. rewrite (rangeKeys_perm ord). unfold mapKeys.
    rewrite list_elem_of_fmap. split.
    - intros [[k x] [-> Hx]]. apply elem_of_map_to_list in Hx. by exists x.
    - intros [x Hx]. exists (v, x). split; [done|]. by apply elem_of_map_to_list. }
  f_equal.
  - apply map_eq. intros v.
    pose proof (splitUnused_fst (rangeKeys ord (mapKeys iv2)) iv2 ∅ v) as H.
    rewrite E3 in H. simpl in H. rewrite H. clear H.
    rewrite <- Hmv1.
    destruct (decide (_ ∧ _)) as [[_ Hv]|Hn].
    + symmetry. apply map_lookup_filter_None. right. intros x Hx.
      apply map_lookup_filter_Some in Hx as [Hx _].
      rewrite Hiv2 in Hv. case_decide; [done|]. simpl. congruence.
    + rewrite Hiv2. rewrite Hiv2 in Hn. rewrite Hkeys, Hiv2 in Hn.
      case_decide as Hc.
      * symmetry. apply map_lookup_filter_None. right. intros x Hx.
        apply map_lookup_filter_Some in Hx as [Hx [? ?]]. simpl in *. tauto.
      * destruct (inputVars st !! v) as [x|] eqn:Hx.
        -- symmetry. apply map_lookup_filter_Some. split.
           ++ apply map_lookup_filter_Some. simpl. split; [done|]. tauto.
           ++ simpl. intros ->. apply Hn. split; [by exists 1|done].
        -- symmetry. apply map_lookup_filter_None. left.
           apply map_lookup_filter_None. by left.
  - done.
  - apply set_eq. intros v.
    pose proof (splitUnused_snd (rangeKeys ord (mapKeys iv2)) iv2 ∅ v) as H.
    rewrite E3 in H. simpl in H. rewrite H. clear H.
    rewrite Hkeys, Hiv2, elem_of_dom. rewrite <- Hmv1.
    split.
    + intros [H|[_ H]]; [by apply not_elem_of_empty in H|].
      case_decide; [done|]. exists 1.
      apply map_lookup_filter_Some. split; [|done].
      apply map_lookup_filter_Some. simpl. split; [done|]. tauto.
    + intros [x Hx]. right.
      apply map_lookup_filter_Some in Hx as [Hx Hone]. simpl in Hone. subst x.
      apply map_lookup_filter_Some in Hx as [Hx [? ?]]. simpl in *.
      rewrite decide_False by tauto. split; [by exists 1|done].
Qed.

End Reconcile.


(** ** The shape of a run *)

Lemma genDot_traverse ord cg st :
  traverse cg = Ok st →
  genDot ord cg =
    Ok {| document :=
            Cleanup.stripBlockPrefix (traceLoop ord (variables st) (dot st))
              +:+ "}" +:+ nl;
          roles := reconciled st;
          chepinScore := chepinOf (reconciled st);
          cyclomaticComplexity :=
            ((countLive (Blocks cg)).1 - (countLive (Blocks cg)).2 + 2)%Z;
          numEdges := (countLive (Blocks cg)).1;
          numNodes := (countLive (Blocks cg)).2 |}.
Proof.
  intros Ht. unfold genDot. rewrite Ht. simpl.
  destruct (countLive (Blocks cg)) as [e n]. simpl.
  by rewrite reconcile_reconciled.
Qed.

Lemma genDot_Ok_inv ord cg out :
  genDot ord cg = Ok out → ∃ st, traverse cg = Ok st.
Proof.
  unfold genDot. destruct (traverse cg) as [st|]; [eauto|done].
Qed.

Lemma genDot_Panic ord cg : traverse cg = Panic → genDot ord cg = Panic.
Proof. intros Ht. unfold genDot. by rewrite Ht. Qed.

(** ** Chepin's metric *)

Section Chepin.

Variable st : State.

Let C : gset string := controlVars st.
Let M : gset string := modifiedVars st ∖ C.
Let I : gset string := dom (inputVars st) ∖ C ∖ M.
Let T : gset string := filter (fun v => inputVars st !! v = Some 1) I.
Let P : gset string := I ∖ T.

Lemma reconciled_unused : unusedSet (reconciled st) = T.
Proof.
  apply set_eq. intros v. unfold reconciled. simpl.
  rewrite elem_of_dom. unfold T, I, M, C. split.
  - intros [x Hx]. apply map_lookup_filter_Some in Hx as [Hx H1].
    apply map_lookup_filter_Some in Hx as [Hx [Hc Hm]]. simpl in *. subst x.
    apply elem_of_filter. split; [done|].
    apply elem_of_difference. split; [|done].
    apply elem_of_difference. split; [|done].
    apply elem_of_dom. eauto.
  - intros Hv. apply elem_of_filter in Hv as [H1 Hv].
    apply elem_of_difference in Hv as [Hv Hm].
    apply elem_of_difference in Hv as [_ Hc].
    exists 1.
    apply map_lookup_filter_Some. split; [|done].
    apply map_lookup_filter_Some. split; done.
Qed.

Lemma reconciled_input_lookup v :
  inputSet (reconciled st) !! v = if decide (v ∈ P) then inputVars st !! v else None.
Proof.
  unfold reconciled. simpl. unfold P, T, I, M, C.
  destruct (decide _) as [Hin|Hnin].
  - apply elem_of_difference in Hin as [Hin Hn].
    apply elem_of_difference in Hin as [Hin Hm].
    apply elem_of_difference in Hin as [Hin Hc].
    apply elem_of_dom in Hin as [x Hx]. rewrite Hx.
    apply map_lookup_filter_Some. split.
    + apply map_lookup_filter_Some. split; done.
    + simpl. intros ->. apply Hn. apply elem_of_filter. split; [done|].
      apply elem_of_difference. split; [|done].
      apply elem_of_difference. split; [|done].
      apply elem_of_dom. eauto.
  - apply map_lookup_filter_None. right. intros x Hx Hone.
    apply map_lookup_filter_Some in Hx as [Hx [Hc Hm]]. simpl in *.
    apply Hnin.
    apply elem_of_difference. split.
    + apply elem_of_difference. split; [|done].
      apply elem_of_difference. split; [|done].
      apply elem_of_dom. eauto.
    + intros Hf. apply elem_of_filter in Hf as [H1 _]. congruence.
Qed.

Lemma reconciled_input_dom : dom (inputSet (reconciled st)) = P.
Proof.
  apply set_eq. intros v. rewrite elem_of_dom, reconciled_input_lookup.
  destruct (decide (v ∈ P)) as [Hin|Hnin].
  - split; [done|]. intros _. unfold P, T, I in Hin.
    rewrite !elem_of_difference, elem_of_dom in Hin. tauto.
  - split; [by intros [? ?]|done].
Qed.

End Chepin.

(** C1, as the code has it.  For every scoring run the sets that enter the
    score are: C, the control set as classified; M, the modified set
    without the members of C; T, the names left in the input set (after the
    members of C and then of M were removed) that were declared or assigned
    exactly once, which is the count the input set keeps for a name; and P,
    the rest of the input set.  The score is the size of P, plus twice the
    size of M, plus three times the size of C, plus half the size of T. *)
Theorem chepin_score_over_reconciled_sets (ord : MapOrder) (cg : CFG) (st : State) :
  traverse cg = Ok st →
  let C := controlVars st in
  let M := modifiedVars st ∖ C in
  let I := dom (inputVars st) ∖ C ∖ M in
  let T := filter (fun v => inputVars st !! v = Some 1) I in
  let P := I ∖ T in
  ∃ out, genDot ord cg = Ok out
    ∧ controlSet (roles out) = C
    ∧ modifiedSet (roles out) = M
    ∧ unusedSet (roles out) = T
    ∧ dom (inputSet (roles out)) = P
    ∧ (∀ v, v ∈ P → inputSet (roles out) !! v = inputVars st !! v)
    ∧ chepinScore out
      = (inject_Z (Z.of_nat (size P)) + 2 * inject_Z (Z.of_nat (size M))
         + 3 * inject_Z (Z.of_nat (size C))
         + (1 # 2) * inject_Z (Z.of_nat (size T)))%Q.
Proof.
  intros Ht C M I T P. eexists. split; [by apply genDot_traverse|].
  cbn [roles chepinScore].
  split; [done|]. split; [done|].
  split; [apply reconciled_unused|].
  split; [apply reconciled_input_dom|].
  split.
  - intros v Hv. rewrite reconciled_input_lookup. by rewrite decide_True.
  - unfold chepinOf, chepin.
    rewrite <- size_dom, reconciled_input_dom, reconciled_unused.
    done.
Qed.

(** C1 as stated fails when the recorded occurrences of a name are the
    entries of its variable trace: in [a = 0; return a] the name has two of
    them, the assignment and the return, and a trace edge between the two,
    yet it is moved to the unused set and weighs one half in the score.
    What the code compares with one is the count of declarations and
    assignments. *)
Lemma returned_name_is_moved_to_unused :
  ∃ st out, traverse Samples.assignReturn = Ok st
    ∧ genDot inOrder Samples.assignReturn = Ok out
    ∧ variables st !! "a" = Some ["block_0_node_0"; "block_0_node_1"]
    ∧ inputVars st !! "a" = Some 1
    ∧ contains (document out)
        (traceEdge "block_0_node_0" "block_0_node_1" "a") = true
    ∧ unusedSet (roles out) = {[ "a" ]}
    ∧ inputSet (roles out) = ∅
    ∧ (chepinScore out == 1 # 2)%Q.
Proof.
  eexists. eexists. split; [vm_compute; reflexivity|].
  split; [vm_compute; reflexivity|].
  repeat split; vm_compute; reflexivity.
Qed.

(** C3. After the reconciliation the three named sets are pairwise disjoint. *)
Theorem role_sets_pairwise_disjoint (ord : MapOrder) (cg : CFG) (out : Output) :
  genDot ord cg = Ok out →
  dom (inputSet (roles out)) ## controlSet (roles out)
  ∧ modifiedSet (roles out) ## controlSet (roles out)
  ∧ dom (inputSet (roles out)) ## modifiedSet (roles out).
Proof.
  intros Hg. destruct (genDot_Ok_inv _ _ _ Hg) as [st Ht].
  rewrite (genDot_traverse ord _ _ Ht) in Hg. injection Hg as <-.
  cbn [roles]. rewrite reconciled_input_dom. unfold reconciled. simpl.
  set_solver.
Qed.

(** ** Cyclomatic complexity *)

Lemma blockAt_Ok cg i b :
  blockAt cg i = Ok b ↔
  (0 ≤ i < Z.of_nat (length (Blocks cg)))%Z ∧ Blocks cg !! Z.to_nat i = Some b.
Proof.
  unfold blockAt. case_decide as Hr.
  - destruct (Blocks cg !! Z.to_nat i) as [b'|] eqn:E.
    + split; [intros [= ->]; done|]. intros [_ [= ->]]. done.
    + split; [done|]. intros [_ ?]. done.
  - split; [done|]. tauto.
Qed.

Lemma blockAt_inRange cg i : inRange cg i = true → is_Ok (blockAt cg i).
Proof.
  unfold inRange. intros Hr. apply bool_decide_eq_true in Hr.
  destruct (lookup_lt_is_Some_2 (Blocks cg) (Z.to_nat i)) as [b Hb]; [lia|].
  exists b. apply blockAt_Ok. done.
Qed.

Lemma blockAt_of_nat cg (i : nat) b :
  Blocks cg !! i = Some b → blockAt cg (Z.of_nat i) = Ok b.
Proof.
  intros Hb. apply blockAt_Ok. rewrite Nat2Z.id. split; [|done].
  apply lookup_lt_Some in Hb. lia.
Qed.

Lemma countLive_acc blocks e n :
  foldl (fun '(numEdges, numNodes) block =>
           if Live block
           then ((numEdges + Z.of_nat (length (Succs block)))%Z, (numNodes + 1)%Z)
           else (numEdges, numNodes))
        (e, n) blocks
  = ((e + foldr (fun b acc => (Z.of_nat (length (Succs b)) + acc)%Z) 0%Z
            (filter (fun b => Live b = true) blocks))%Z,
     (n + Z.of_nat (length (filter (fun b => Live b = true) blocks)))%Z).
Proof.
  revert e n. induction blocks as [|b bs IH]; intros e n.
  - simpl. f_equal; lia.
  - simpl foldl. rewrite filter_cons. destruct (Live b) eqn:El.
    + rewrite IH. rewrite decide_True by done. simpl. f_equal; lia.
    + rewrite IH. rewrite decide_False by done. done.
Qed.

(** The counting loop computes E and N. *)
Lemma countLive_spec cg : countLive (Blocks cg) = (liveEdges cg, liveNodes cg).
Proof.
  unfold countLive. rewrite countLive_acc. unfold liveEdges, liveNodes, liveBlocks.
  f_equal; lia.
Qed.

Lemma length_filter_ne (l : list Z) (a : Z) :
  NoDup l → a ∈ l → S (length (filter (fun i => i ≠ a) l)) = length l.
Proof.
  induction 1 as [|x l Hx Hnd IH]; intros Ha; [by apply elem_of_nil in Ha|].
  rewrite filter_cons. apply elem_of_cons in Ha as [->|Ha].
  - rewrite decide_False by tauto. simpl. f_equal.
    clear IH Hnd. induction l as [|y l IH]; [done|].
    rewrite filter_cons. rewrite not_elem_of_cons in Hx. destruct Hx as [Hxy Hx].
    rewrite decide_True by done. simpl. f_equal. by apply IH.
  - rewrite decide_True by (intros ->; done). simpl. f_equal. by apply IH.
Qed.

Section StraightLine.

Variable cg : CFG.
Hypothesis Hsl : noBranchNoLoop cg.

Let R := succStep cg.

Lemma succStep_inRange i j : R i j → is_Ok (blockAt cg j).
Proof.
  intros (b & s & Hb & Hs & <-). apply blockAt_inRange.
  pose proof (nbl_range _ Hsl) as Hr. unfold succsInRange in Hr.
  rewrite forallb_forall in Hr.
  apply blockAt_Ok in Hb as [_ Hb].
  apply list_elem_of_lookup_2, list_elem_of_In in Hb.
  specialize (Hr _ Hb). rewrite forallb_forall in Hr.
  apply Hr. by apply list_elem_of_In.
Qed.

Lemma reach_live i : rtc R 0%Z i → ∃ b, blockAt cg i = Ok b ∧ Live b = true.
Proof.
  intros Hr.
  assert (Hb : is_Ok (blockAt cg i)).
  { apply rtc_inv_r in Hr as [<-|(j & _ & Hj)].
    - apply (nbl_entry _ Hsl).
    - by eapply succStep_inRange. }
  destruct Hb as [b Hb]. exists b. split; [done|].
  by apply (nbl_live _ Hsl i b Hb).
Qed.

Lemma isLive_reach i : isLive cg i = true ↔ rtc R 0%Z i.
Proof.
  unfold isLive. split.
  - destruct (blockAt cg i) as [b|] eqn:Hb; [|done].
    intros Hl. by apply (nbl_live _ Hsl i b Hb).
  - intros Hr. destruct (reach_live _ Hr) as (b & -> & Hl). done.
Qed.

Lemma step_next i j : rtc R 0%Z i → R i j → j = next cg i ∧ degree cg i = 1.
Proof.
  intros Hr (b & s & Hb & Hs & <-).
  destruct (reach_live _ Hr) as (b' & Hb' & Hl).
  rewrite Hb in Hb'. injection Hb' as <-.
  pose proof (nbl_nobranch _ Hsl i b Hb Hl) as Hd.
  unfold next, degree. rewrite Hb.
  destruct (Succs b) as [|s0 [|s1 rest]]; simpl in *.
  - by apply elem_of_nil in Hs.
  - apply list_elem_of_singleton in Hs. by subst.
  - lia.
Qed.

Lemma next_step i : rtc R 0%Z i → degree cg i ≠ 0 → R i (next cg i).
Proof.
  intros Hr Hd. destruct (reach_live _ Hr) as (b & Hb & Hl).
  unfold degree, next in *. rewrite Hb in *.
  destruct (Succs b) as [|s rest] eqn:Es; [done|].
  exists b, s. split; [done|]. split; [|done]. rewrite Es. left.
Qed.

Lemma no_cycle i : rtc R 0%Z i → ¬ tc R i i.
Proof.
  intros Hr. destruct (reach_live _ Hr) as (b & Hb & Hl).
  by apply (nbl_noloop _ Hsl i b Hb Hl).
Qed.

(** Along the one path from the entry, any two blocks are in line. *)
Lemma reach_comparable x y z :
  rtc R 0%Z x → rtc R x y → rtc R x z → rtc R y z ∨ rtc R z y.
Proof.
  intros Hx Hxy. revert z Hx. induction Hxy as [x|x x' y Hstep Hrest IH]; intros z Hx Hxz.
  - by left.
  - apply rtc_inv in Hxz as [<-|(x'' & Hstep' & Hrest')].
    + right. by eapply rtc_l.
    + destruct (step_next _ _ Hx Hstep) as [-> _].
      destruct (step_next _ _ Hx Hstep') as [-> _].
      apply IH; [|done]. by eapply rtc_r.
Qed.

Lemma next_inj i j :
  rtc R 0%Z i → rtc R 0%Z j → degree cg i ≠ 0 → degree cg j ≠ 0 →
  next cg i = next cg j → i = j.
Proof.
  intros Hi Hj Hdi Hdj Heq.
  pose proof (next_step _ Hi Hdi) as Si.
  pose proof (next_step _ Hj Hdj) as Sj.
  assert (Hone : ∀ a b, rtc R 0%Z a → rtc R 0%Z b → R a (next cg a) → R b (next cg a) →
                        rtc R a b → a = b).
  { intros a b Ha Hb Sa Sb Hab.
    apply rtc_inv in Hab as [?|(x & Hax & Hxb)]; [done|].
    destruct (step_next _ _ Ha Hax) as [-> _].
    exfalso. apply (no_cycle (next cg a)); [by eapply rtc_r|].
    eapply tc_rtc_l; [done|]. by apply tc_once. }
  destruct (reach_comparable 0%Z i j) as [Hij|Hji]; [done..| |].
  - apply Hone; try done. by rewrite Heq.
  - symmetry. apply Hone; try done. by rewrite <- Heq.
Qed.

Lemma liveIdx_elem i : i ∈ (liveIdx cg) ↔ rtc R 0%Z i.
Proof.
  unfold liveIdx. rewrite list_elem_of_filter, isLive_reach, elem_of_seqZ.
  split; [tauto|]. intros Hr. split; [done|].
  destruct (reach_live _ Hr) as (b & Hb & _).
  apply blockAt_Ok in Hb. lia.
Qed.

Lemma liveIdx_NoDup : NoDup (liveIdx cg).
Proof. apply NoDup_filter, NoDup_seqZ. Qed.

Lemma nonsinks_perm :
  next cg <$> filter (fun i => degree cg i ≠ 0) (liveIdx cg)
  ≡ₚ filter (fun i => i ≠ 0%Z) (liveIdx cg).
Proof.
  apply NoDup_Permutation.
  - apply NoDup_fmap_2_strong; [|apply NoDup_filter, liveIdx_NoDup].
    intros i j Hi Hj. apply list_elem_of_filter in Hi as [Hdi Hi], Hj as [Hdj Hj].
    apply liveIdx_elem in Hi, Hj. by apply next_inj.
  - apply NoDup_filter, liveIdx_NoDup.
  - intros x. rewrite list_elem_of_fmap, list_elem_of_filter, liveIdx_elem. split.
    + intros (i & -> & Hi). apply list_elem_of_filter in Hi as [Hd Hi].
      apply liveIdx_elem in Hi. pose proof (next_step _ Hi Hd) as Hs. split.
      * intros H0. apply (no_cycle 0%Z); [done|].
        eapply tc_rtc_l; [done|]. apply tc_once. by rewrite <- H0.
      * by eapply rtc_r.
    + intros [Hne Hr]. apply rtc_inv_r in Hr as [?|(i & Hi & Hs)]; [done|].
      destruct (step_next _ _ Hi Hs) as [-> Hd]. exists i. split; [done|].
      apply list_elem_of_filter. split; [lia|]. by apply liveIdx_elem.
Qed.

Lemma sum_degree (l : list Z) :
  (∀ i, i ∈ l → degree cg i ≤ 1) →
  foldr (fun i acc => (Z.of_nat (degree cg i) + acc)%Z) 0%Z l
  = Z.of_nat (length (filter (fun i => degree cg i ≠ 0) l)).
Proof.
  induction l as [|x l IH]; intros Hd; [done|].
  simpl foldr. rewrite filter_cons, IH by (intros i Hi; apply Hd; by right).
  specialize (Hd x (ltac:(left))).
  case_decide; simpl; lia.
Qed.

End StraightLine.

(** The live blocks, by position. *)
Lemma liveBlocks_by_index cg l (k : Z) :
  (0 ≤ k)%Z →
  (∀ (i : nat) b, l !! i = Some b → blockAt cg (k + Z.of_nat i) = Ok b) →
  length (filter (fun b => Live b = true) l)
    = length (filter (fun i => isLive cg i = true) (seqZ k (Z.of_nat (length l))))
  ∧ foldr (fun b acc => (Z.of_nat (length (Succs b)) + acc)%Z) 0%Z
          (filter (fun b => Live b = true) l)
    = foldr (fun i acc => (Z.of_nat (degree cg i) + acc)%Z) 0%Z
          (filter (fun i => isLive cg i = true) (seqZ k (Z.of_nat (length l)))).
Proof.
  revert k. induction l as [|b l IH]; intros k Hk Hl; [done|].
  rewrite seqZ_cons by (simpl; lia).
  replace (Z.pred (Z.of_nat (length (b :: l)))) with (Z.of_nat (length l)) by (simpl; lia).
  destruct (IH (Z.succ k)) as [IH1 IH2]; [lia| |].
  { intros i b' Hi. replace (Z.succ k + Z.of_nat i)%Z with (k + Z.of_nat (S i))%Z by lia.
    by apply Hl. }
  pose proof (Hl 0 b eq_refl) as Hb. rewrite Z.add_0_r in Hb.
  assert (HL : isLive cg k = Live b) by (unfold isLive; by rewrite Hb).
  assert (HD : degree cg k = length (Succs b)) by (unfold degree; by rewrite Hb).
  rewrite !filter_cons. destruct (Live b) eqn:El.
  - rewrite decide_True by done. rewrite (decide_True (P := isLive cg k = true)) by done.
    simpl. rewrite HD. split; congruence.
  - rewrite decide_False by done.
    rewrite (decide_False (P := isLive cg k = true)) by (rewrite HL; done).
    done.
Qed.

(** Without branches and loops the live blocks form one path: there is one
    edge less than there are blocks. *)
Lemma straight_line_edges cg : noBranchNoLoop cg → (liveEdges cg = liveNodes cg - 1)%Z.
Proof.
  intros Hsl. unfold liveEdges, liveNodes, liveBlocks.
  destruct (liveBlocks_by_index cg (Blocks cg) 0) as [HN HE]; [done| |].
  { intros i b Hi. by apply blockAt_of_nat. }
  rewrite HE, HN. fold (liveIdx cg).
  rewrite (sum_degree cg).
  2:{ intros i Hi. apply (liveIdx_elem _ Hsl) in Hi.
      destruct (reach_live _ Hsl _ Hi) as (b & Hb & Hl). unfold degree. rewrite Hb.
      by apply (nbl_nobranch _ Hsl i b). }
  rewrite <- (length_fmap (next cg)), (nonsinks_perm cg Hsl).
  pose proof (length_filter_ne (liveIdx cg) 0%Z (liveIdx_NoDup cg)) as Hlen.
  rewrite <- Hlen; [lia|]. apply (liveIdx_elem _ Hsl). done.
Qed.

(** ** The lookahead over empty blocks *)

Section Lookahead.

Variable cg : CFG.
Hypothesis Hrange : succsInRange cg = true.

Let R := succStep cg.

Lemma succs_inRange i b s :
  blockAt cg i = Ok b → s ∈ Succs b → inRange cg (sIndex s) = true.
Proof.
  intros Hb Hs. unfold succsInRange in Hrange.
  rewrite forallb_forall in Hrange.
  apply blockAt_Ok in Hb as [_ Hb].
  apply list_elem_of_lookup_2, list_elem_of_In in Hb.
  specialize (Hrange _ Hb). rewrite forallb_forall in Hrange.
  apply Hrange. by apply list_elem_of_In.
Qed.

Lemma bfs_sound visited queue :
  (∀ i, i ∈ queue → inRange cg i = true) →
  searched cg visited queue →
  match bfs cg visited queue with
  | Ok None =>
      ∀ q j b, (q ∈ visited ∨ q ∈ queue) → rtc R q j → blockAt cg j = Ok b →
               Nodes b = []
  | Ok (Some b) =>
      Nodes b ≠ [] ∧ ∃ q j, q ∈ queue ∧ rtc R q j ∧ blockAt cg j = Ok b
  | Panic => False
  end.
Proof.
  funelim (bfs cg visited queue).
  - (* the queue is empty: the visited blocks are closed under successors *)
    intros _ Hs q j b [Hq|Hq] Hreach Hb; [|by apply elem_of_nil in Hq].
    assert (Hj : j ∈ visited).
    { clear Hb. induction Hreach as [x|x y z Hxy _ IH]; [done|].
      apply IH. destruct (Hs x Hq) as [_ Hw].
      destruct (Hw y Hxy) as [?|Hy]; [done|]. by apply elem_of_nil in Hy. }
    destruct (Hs j Hj) as [He _]. by apply He.
  - intros Hq Hs. destruct (decide (0 < length (Nodes currentBlock))) as [Hn|Hn].
    + (* the block at the head of the queue has a statement *)
      split; [intros He; rewrite He in Hn; simpl in Hn; lia|].
      exists currentIndex, currentIndex. split; [left|]. split; [apply rtc_refl|done].
    + (* it has none: its successors join the queue *)
      assert (He : Nodes currentBlock = [])
        by (destruct (Nodes currentBlock); [done|simpl in Hn; lia]).
      assert (Hq' : ∀ i, i ∈ queue ++ filter (fun i0 => i0 ∉ {[currentIndex]} ∪ visited)
                                          (sIndex <$> Succs currentBlock)
                         → inRange cg i = true).
      { intros i Hi. apply elem_of_app in Hi as [Hi|Hi]; [apply Hq; by right|].
        apply list_elem_of_filter in Hi as [_ Hi].
        apply list_elem_of_fmap in Hi as (s & -> & Hs'). by eapply succs_inRange. }
      assert (Hs' : searched cg ({[currentIndex]} ∪ visited)
                      (queue ++ filter (fun i0 => i0 ∉ {[currentIndex]} ∪ visited)
                                       (sIndex <$> Succs currentBlock))).
      { intros v Hv. apply elem_of_union in Hv as [Hv|Hv].
        - apply elem_of_singleton in Hv as ->. split.
          + intros b Hb'. rewrite Hb in Hb'. by injection Hb' as <-.
          + intros w (b & s & Hb' & Hsin & <-).
            rewrite Hb in Hb'. injection Hb' as <-.
            destruct (decide (sIndex s ∈ {[currentIndex]} ∪ visited)) as [?|Hnin];
              [by left|right].
            apply elem_of_app. right. apply list_elem_of_filter. split; [done|].
            apply list_elem_of_fmap. eauto.
        - destruct (Hs v Hv) as [Hemp Hsucc]. split; [done|].
          intros w Hw. destruct (Hsucc w Hw) as [?|Hin].
          + left. apply elem_of_union. by right.
          + apply elem_of_cons in Hin as [->|Hin].
            * left. apply elem_of_union. left. by apply elem_of_singleton.
            * right. apply elem_of_app. by left. }
      specialize (H Hn Hq' Hs').
      destruct (bfs cg _ _) as [[b|]|]; [| |done].
      * destruct H as [Hne (q & j & Hqin & Hreach & Hbj)]. split; [done|].
        apply elem_of_app in Hqin as [Hqin|Hqin].
        -- exists q, j. split; [by right|done].
        -- apply list_elem_of_filter in Hqin as [_ Hqin].
           apply list_elem_of_fmap in Hqin as (s & -> & Hsin).
           exists currentIndex, j. split; [left|]. split; [|done].
           eapply rtc_l; [|done]. exists currentBlock, s. done.
      * intros q j b Hqin. apply H. destruct Hqin as [Hqin|Hqin].
        -- left. apply elem_of_union. by right.
        -- apply elem_of_cons in Hqin as [->|Hqin].
           ++ left. apply elem_of_union. left. by apply elem_of_singleton.
           ++ right. apply elem_of_app. by left.
  - (* the head of the queue names a block *)
    intros Hq _. destruct (blockAt_inRange cg currentIndex) as [b Hb]; [apply Hq; left|].
    congruence.
Qed.

(** The search from a block of the graph ends, without a panic: with the
    nearest statement-bearing block if one can be reached, with [nil] if
    none can. *)
Lemma findNextBlockWithNodes_spec start :
  inRange cg start = true →
  ∃ r, findNextBlockWithNodes cg start = Ok r
    ∧ (r = None ↔ ∀ j b, rtc R start j → blockAt cg j = Ok b → Nodes b = [])
    ∧ (∀ b, r = Some b → Nodes b ≠ [] ∧ ∃ j, rtc R start j ∧ blockAt cg j = Ok b).
Proof.
  intros Hs. unfold findNextBlockWithNodes.
  pose proof (bfs_sound ∅ [start]) as H.
  destruct (bfs cg ∅ [start]) as [[b|]|].
  - destruct H as [Hne (q & j & Hq & Hreach & Hb)].
    { intros i Hi. apply list_elem_of_singleton in Hi. by subst. }
    { intros v Hv. by apply not_elem_of_empty in Hv. }
    apply list_elem_of_singleton in Hq as ->.
    exists (Some b). split; [done|]. split.
    + split; [done|]. intros Hall. exfalso. apply Hne. by eapply Hall.
    + intros b' [= <-]. eauto.
  - exists None. split; [done|]. split; [|done]. split; [|done].
    intros _ j b Hreach Hb. eapply H; [| |right; left|done..].
    { intros i Hi. apply list_elem_of_singleton in Hi. by subst. }
    { intros v Hv. by apply not_elem_of_empty in Hv. }
  - exfalso. apply H.
    { intros i Hi. apply list_elem_of_singleton in Hi. by subst. }
    { intros v Hv. by apply not_elem_of_empty in Hv. }
Qed.

End Lookahead.

(** ** Runs that reach the end, and runs that do not *)

Section Totality.

Variable cg : CFG.

Lemma succOK_branchTo block nodeID k color st :
  succOK cg block k = true → is_Ok (branchTo cg block nodeID k color st).
Proof.
  unfold succOK, branchTo, succAt. destruct (Succs block !! k) as [s|]; [|done].
  intros Hr. destruct (blockAt_inRange _ _ Hr) as [b Hb]. simpl. rewrite Hb. simpl.
  by eexists.
Qed.

Lemma branchTo_succOK block nodeID k color st :
  succOK cg block k = false → branchTo cg block nodeID k color st = Panic.
Proof.
  unfold succOK, branchTo, succAt. destruct (Succs block !! k) as [s|]; [|done].
  intros Hr. simpl. unfold blockAt. unfold inRange in Hr.
  apply bool_decide_eq_false in Hr. by rewrite decide_False.
Qed.

Lemma assignOK_assignLhs nodeID rhs j lhs st :
  assignOK rhs j lhs = true → is_Ok (assignLhs nodeID rhs j lhs st).
Proof.
  revert j st. induction lhs as [|e lhs IH]; intros j st Hok; [by eexists|].
  destruct e; simpl in *; try by apply IH.
  apply andb_true_iff in Hok as [Hj Hok]. apply bool_decide_eq_true in Hj.
  unfold assignIdent. destruct (lookup_lt_is_Some_2 rhs j Hj) as [e ->]. simpl.
  by apply IH.
Qed.

Lemma assignLhs_assignOK nodeID rhs j lhs st :
  assignOK rhs j lhs = false → assignLhs nodeID rhs j lhs st = Panic.
Proof.
  revert j st. induction lhs as [|e lhs IH]; intros j st Hok; [done|].
  destruct e; simpl in *; try by apply IH.
  unfold assignIdent. apply andb_false_iff in Hok as [Hj|Hok].
  - apply bool_decide_eq_false in Hj. rewrite lookup_ge_None_2 by lia. done.
  - destruct (rhs !! j); [|done]. simpl. by apply IH.
Qed.

(** A node is classified without a panic exactly when [nodeOK] holds. *)
Lemma nodeOK_classifyNode block nodeID node loopID st :
  nodeOK cg block node = true → is_Ok (classifyNode cg block nodeID node loopID st).
Proof.
  destruct node as [v|d|lhs rhs|results|x|x tok|e|c hasElse|c|tok|t]; simpl;
    try (intros _; by eexists).
  - destruct d as [[|[v| |] specs]| |]; try done. intros _. by eexists.
  - intros Hok. destruct (assignOK_assignLhs nodeID rhs 0 lhs st Hok) as [st' ->].
    by eexists.
  - intros _. destruct (returnResults nodeID results st). by eexists.
  - intros _. destruct x; by eexists.
  - destruct x; try done. intros _. by eexists.
  - intros Hok. apply andb_true_iff in Hok as [H0 H1].
    match goal with |- context [branchTo cg block nodeID 0 ?c ?s] =>
      destruct (succOK_branchTo block nodeID 0 c s H0) as [st2 ->] end.
    simpl. destruct hasElse; simpl in *; [|by eexists].
    destruct (succOK_branchTo block nodeID 1 "red" st2 H1) as [st3 ->]. by eexists.
  - intros Hok. apply andb_true_iff in Hok as [H0 H1].
    match goal with |- context [branchTo cg block nodeID 0 ?c ?s] =>
      destruct (succOK_branchTo block nodeID 0 c s H0) as [st2 ->] end.
    simpl. destruct (succOK_branchTo block nodeID 1 "red" st2 H1) as [st3 ->].
    by eexists.
  - destruct tok; by eexists.
Qed.

Lemma classifyNode_nodeOK block nodeID node loopID st :
  nodeOK cg block node = false → classifyNode cg block nodeID node loopID st = Panic.
Proof.
  destruct node as [v|d|lhs rhs|results|x|x tok|e|c hasElse|c|tok|t]; simpl;
    try done.
  - destruct d as [[|[v| |] specs]| |]; done.
  - intros Hok. by rewrite assignLhs_assignOK.
  - destruct x; done.
  - intros Hok. apply andb_false_iff in Hok as [H0|H1].
    + by rewrite branchTo_succOK.
    + destruct (branchTo cg block nodeID 0 _ _) as [st2|]; [|done]. simpl.
      destruct hasElse; simpl in H1; [|done]. by rewrite branchTo_succOK.
  - intros Hok. apply andb_false_iff in Hok as [H0|H1].
    + by rewrite branchTo_succOK.
    + destruct (branchTo cg block nodeID 0 _ _) as [st2|]; [|done]. simpl.
      by rewrite branchTo_succOK.
Qed.

Lemma nodesLoop_Ok block blockID i nodes loc st :
  forallb (nodeOK cg block) nodes = true →
  is_Ok (nodesLoop cg block blockID i nodes loc st).
Proof.
  revert i loc st. induction nodes as [|node nodes IH]; intros i loc st Hok;
    [by eexists|].
  simpl in *. apply andb_true_iff in Hok as [Hn Hok].
  destruct (nodeOK_classifyNode block (nodeName blockID i) node (loopID loc) st Hn)
    as [[l st1] ->].
  simpl. by apply IH.
Qed.

(** A node that cannot be classified aborts the loop over its block. *)
Lemma nodesLoop_Panic block blockID i nodes loc st k node :
  nodes !! k = Some node → nodeOK cg block node = false →
  nodesLoop cg block blockID i nodes loc st = Panic.
Proof.
  revert i loc st k. induction nodes as [|n nodes IH]; intros i loc st k Hk Hbad;
    [done|].
  simpl. destruct k as [|k]; simpl in Hk.
  - injection Hk as ->. by rewrite classifyNode_nodeOK.
  - destruct (classifyNode cg block _ n _ st) as [[l st1]|]; [|done]. simpl.
    by eapply IH.
Qed.

Hypothesis Hrange : succsInRange cg = true.

Lemma succEdge_Ok block lastNodeID succ st :
  block ∈ Blocks cg → succ ∈ Succs block →
  is_Ok (succEdge cg lastNodeID succ st).
Proof.
  intros Hb Hs. unfold succEdge.
  destruct (isEmpty lastNodeID); [by eexists|].
  assert (Hr : inRange cg (sIndex succ) = true).
  { apply list_elem_of_lookup in Hb as [i Hi].
    eapply succs_inRange; [done|by apply blockAt_of_nat|done]. }
  destruct (blockAt_inRange _ _ Hr) as [b ->]. simpl.
  case_decide; [by eexists|].
  destruct (findNextBlockWithNodes_spec cg Hrange _ Hr) as (r & -> & _). simpl.
  destruct r; by eexists.
Qed.

Lemma succsLoop_Ok block lastNodeID succs st :
  block ∈ Blocks cg → succs ⊆ Succs block →
  is_Ok (succsLoop cg lastNodeID succs st).
Proof.
  intros Hb. revert st. induction succs as [|s succs IH]; intros st Hsub;
    [by eexists|].
  simpl. destruct (succEdge_Ok block lastNodeID s st Hb) as [st' ->].
  { apply Hsub. left. }
  simpl. apply IH. intros x Hx. apply Hsub. by right.
Qed.

Lemma blockBody_Ok block st :
  block ∈ Blocks cg → blockOK cg block = true → is_Ok (blockBody cg block st).
Proof.
  intros Hb Hok. unfold blockBody, blockOK in *.
  destruct (Live block); [|by eexists]. simpl in Hok.
  destruct (nodesLoop_Ok block (blockName (Index block)) 0 (Nodes block)
              freshLocals st Hok) as [[loc st1] ->].
  simpl. by eapply succsLoop_Ok.
Qed.

Lemma blocksLoop_Ok blocks st :
  blocks ⊆ Blocks cg → forallb (blockOK cg) blocks = true →
  is_Ok (blocksLoop cg blocks st).
Proof.
  revert st. induction blocks as [|b blocks IH]; intros st Hsub Hok; [by eexists|].
  simpl in *. apply andb_true_iff in Hok as [Hb Hok].
  destruct (blockBody_Ok b st) as [st' ->]; [apply Hsub; left|done|].
  simpl. apply IH; [|done]. intros x Hx. apply Hsub. by right.
Qed.

End Totality.

(** On a well-formed graph the traversal, and with it [genDot], runs to the
    end. *)
Lemma traverse_Ok cg : wellFormed cg = true → is_Ok (traverse cg).
Proof.
  unfold wellFormed. intros Hwf. apply andb_true_iff in Hwf as [Hr Hb].
  by apply blocksLoop_Ok.
Qed.

Lemma genDot_Ok ord cg : wellFormed cg = true → is_Ok (genDot ord cg).
Proof.
  intros Hwf. destruct (traverse_Ok cg Hwf) as [st Hst].
  rewrite (genDot_traverse ord cg st Hst). by eexists.
Qed.

(** A live block with a node that cannot be classified aborts the run. *)
Lemma blocksLoop_Panic cg blocks st i block k node :
  blocks !! i = Some block → Live block = true →
  Nodes block !! k = Some node → nodeOK cg block node = false →
  blocksLoop cg blocks st = Panic.
Proof.
  revert st i. induction blocks as [|b blocks IH]; intros st i Hi Hl Hk Hbad; [done|].
  simpl. destruct i as [|i]; simpl in Hi.
  - injection Hi as ->. unfold blockBody. rewrite Hl.
    by erewrite nodesLoop_Panic.
  - destruct (blockBody cg b st) as [st'|]; [|done]. simpl. by eapply IH.
Qed.

Lemma genDot_Panic_node ord cg i block k node :
  Blocks cg !! i = Some block → Live block = true →
  Nodes block !! k = Some node → nodeOK cg block node = false →
  genDot ord cg = Panic.
Proof.
  intros. apply genDot_Panic. unfold traverse. by eapply blocksLoop_Panic.
Qed.

(** C2. The cyclomatic complexity that a run reports is E − N + 2, with E
    the successors of the live blocks in total and N the number of live
    blocks; for a function without branches or loops it is 1.  A run on a
    well-formed graph does report one. *)
Theorem cyclomatic_is_E_minus_N_plus_2 (ord : MapOrder) (cg : CFG) :
  (wellFormed cg = true → is_Ok (genDot ord cg))
  ∧ ∀ out, genDot ord cg = Ok out →
      cyclomaticComplexity out = (liveEdges cg - liveNodes cg + 2)%Z
      ∧ (noBranchNoLoop cg → cyclomaticComplexity out = 1%Z).
Proof.
  split; [apply genDot_Ok|].
  intros out Hg. destruct (genDot_Ok_inv _ _ _ Hg) as [st Ht].
  rewrite (genDot_traverse ord _ _ Ht) in Hg. injection Hg as <-.
  cbn [cyclomaticComplexity]. rewrite countLive_spec. cbn [fst snd].
  split; [done|]. intros Hsl. rewrite (straight_line_edges cg Hsl). lia.
Qed.


(** C9, as the code has it.  For an empty function body (one live block,
    no statement, no successor) the document is the graph wrapper alone,
    and the cyclomatic complexity is 0 − 1 + 2 = 1. *)
Theorem empty_body_wrapper_and_cyclomatic_1 (ord : MapOrder) (index : Z)
    (summary : string) :
  ∃ out,
    genDot ord {| Blocks := [ {| Nodes := []; Succs := []; Index := index;
                                 Live := true; BString := summary |} ] |} = Ok out
    ∧ document out = "digraph G {" +:+ nl +:+ "}" +:+ nl
    ∧ cyclomaticComplexity out = 1%Z.
Proof.
  eexists. split; [by apply genDot_traverse|]. split; [|done].
  cbn [document]. unfold traceLoop, mapKeys. simpl variables.
  rewrite map_to_list_empty. simpl.
  pose proof (rangeKeys_perm ord []) as Hp. apply Permutation_nil_r in Hp.
  rewrite Hp. done.
Qed.

(** C9 as stated fails: the empty body scores 1, not 2. *)
Lemma empty_body_cyclomatic_is_not_2 :
  ∃ out, genDot inOrder Samples.emptyBody = Ok out
    ∧ cyclomaticComplexity out ≠ 2%Z.
Proof. eexists. split; [vm_compute; reflexivity|]. done. Qed.

(** ** The control set along the traversal *)

Section ControlSet.

Variable cg : CFG.

Lemma declNames_control absent nodeID values j names st :
  controlVars (declNames absent nodeID values j names st) = controlVars st.
Proof.
  revert j st. induction names as [|name names IH]; intros j st; [done|].
  simpl. by rewrite IH.
Qed.

Lemma assignLhs_control nodeID rhs j lhs st st' :
  assignLhs nodeID rhs j lhs st = Ok st' → controlVars st' = controlVars st.
Proof.
  revert j st. induction lhs as [|e lhs IH]; intros j st; simpl.
  - by intros [= <-].
  - destruct e; try apply IH.
    unfold assignIdent. destruct (rhs !! j) as [e|]; [|done]. simpl.
    intros H. apply IH in H. rewrite H. by destruct (isBinaryExpr e).
Qed.

Lemma returnResults_control nodeID results st :
  controlVars (returnResults nodeID results st).2 = controlVars st.
Proof.
  unfold returnResults.
  assert (H : ∀ values st0,
             controlVars
               (foldl (fun '(values, st) r =>
                         let value := getValue r in
                         (values ++ [value], recordVar value nodeID st))
                      (values, st0) results).2 = controlVars st0).
  { induction results as [|r results IH]; intros values st0; [done|].
    simpl. by rewrite IH. }
  apply H.
Qed.

Lemma branchTo_control block nodeID k color st st' :
  branchTo cg block nodeID k color st = Ok st' → controlVars st' = controlVars st.
Proof.
  unfold branchTo. destruct (succAt block k) as [s|]; [|done]. simpl.
  destruct (blockAt cg (sIndex s)) as [b|]; [|done]. simpl. by intros [= <-].
Qed.

Lemma classifyNode_control block nodeID node loopID st loopID' st' :
  classifyNode cg block nodeID node loopID st = Ok (loopID', st') →
  controlVars st ⊆ controlVars st'.
Proof.
  destruct node as [v|d|lhs rhs|results|x|x tok|e|c hasElse|c|tok|t]; simpl.
  - intros [= _ <-]. by rewrite declNames_control.
  - destruct d as [[|[v| |] specs]| |]; try done.
    intros [= _ <-]. by rewrite declNames_control.
  - destruct (assignLhs nodeID rhs 0 lhs st) as [st1|] eqn:E; [|done]. simpl.
    intros [= _ <-]. by rewrite (assignLhs_control _ _ _ _ _ _ E).
  - pose proof (returnResults_control nodeID results st) as H.
    destruct (returnResults nodeID results st) as [values st1].
    intros [= _ <-]. simpl in *. by rewrite H.
  - destruct x; by intros [= _ <-].
  - destruct x; try done. by intros [= _ <-].
  - intros [= _ <-]. destruct e as [| | | | |[]|]; simpl; set_solver.
  - match goal with |- context [branchTo cg block nodeID 0 ?c ?s] =>
      destruct (branchTo cg block nodeID 0 c s) as [st2|] eqn:E2 end; [|done].
    apply branchTo_control in E2. simpl in E2. simpl.
    destruct hasElse.
    + destruct (branchTo cg block nodeID 1 "red" st2) as [st3|] eqn:E3; [|done].
      apply branchTo_control in E3. simpl. intros [= _ <-]. set_solver.
    + intros [= _ <-]. set_solver.
  - match goal with |- context [branchTo cg block nodeID 0 ?c ?s] =>
      destruct (branchTo cg block nodeID 0 c s) as [st2|] eqn:E2 end; [|done].
    apply branchTo_control in E2. simpl in E2. simpl.
    destruct (branchTo cg block nodeID 1 "red" st2) as [st3|] eqn:E3; [|done].
    apply branchTo_control in E3. simpl. intros [= _ <-]. set_solver.
  - destruct tok; by intros [= _ <-].
  - by intros [= _ <-].
Qed.

Lemma nodesLoop_control block blockID i nodes loc st loc' st' :
  nodesLoop cg block blockID i nodes loc st = Ok (loc', st') →
  controlVars st ⊆ controlVars st'.
Proof.
  revert i loc st. induction nodes as [|node nodes IH]; intros i loc st; simpl.
  - by intros [= _ <-].
  - destruct (classifyNode cg block _ node _ st) as [[l st1]|] eqn:E; [|done].
    simpl. intros H. apply IH in H. apply classifyNode_control in E.
    destruct (isEmpty (prevNodeID loc)); simpl in H; set_solver.
Qed.

(** Both operands of a bare binary test are in the control set after the
    block. *)
Lemma nodesLoop_binary block blockID i nodes loc st loc' st' k x op y :
  nodes !! k = Some (NExpr (BinaryExpr x op y)) →
  nodesLoop cg block blockID i nodes loc st = Ok (loc', st') →
  getValue x ∈ controlVars st' ∧ getValue y ∈ controlVars st'.
Proof.
  revert i loc st k. induction nodes as [|node nodes IH]; intros i loc st k Hk;
    [done|].
  simpl. destruct (classifyNode cg block _ node _ st) as [[l st1]|] eqn:E; [|done].
  simpl. intros H. destruct k as [|k]; simpl in Hk.
  - injection Hk as ->. simpl in E. injection E as _ <-.
    apply nodesLoop_control in H.
    destruct (isEmpty (prevNodeID loc)); simpl in H; set_solver.
  - by eapply IH.
Qed.

Lemma succsLoop_control lastNodeID succs st st' :
  succsLoop cg lastNodeID succs st = Ok st' → controlVars st' = controlVars st.
Proof.
  revert st. induction succs as [|s succs IH]; intros st; simpl.
  - by intros [= <-].
  - destruct (succEdge cg lastNodeID s st) as [st1|] eqn:E; [|done]. simpl.
    intros H. rewrite (IH _ H). clear H IH. unfold succEdge in E.
    destruct (isEmpty lastNodeID); [by injection E as <-|].
    destruct (blockAt cg (sIndex s)) as [b|]; [|done]. simpl in E.
    case_decide; [by injection E as <-|].
    destruct (findNextBlockWithNodes cg (sIndex s)) as [[nb|]|]; [| |done];
      simpl in E; by injection E as <-.
Qed.

Lemma blockBody_control block st st' :
  blockBody cg block st = Ok st' → controlVars st ⊆ controlVars st'.
Proof.
  unfold blockBody. destruct (Live block); [|by intros [= <-]].
  destruct (nodesLoop cg block _ 0 _ _ st) as [[loc st1]|] eqn:E; [|done]. simpl.
  intros H. apply succsLoop_control in H. apply nodesLoop_control in E.
  by rewrite H.
Qed.

Lemma blocksLoop_control blocks st st' :
  blocksLoop cg blocks st = Ok st' → controlVars st ⊆ controlVars st'.
Proof.
  revert st. induction blocks as [|b blocks IH]; intros st; simpl.
  - by intros [= <-].
  - destruct (blockBody cg b st) as [st1|] eqn:E; [|done]. simpl.
    intros H. apply IH in H. apply blockBody_control in E. set_solver.
Qed.

Lemma blocksLoop_binary blocks st st' i block k x op y :
  blocks !! i = Some block → Live block = true →
  Nodes block !! k = Some (NExpr (BinaryExpr x op y)) →
  blocksLoop cg blocks st = Ok st' →
  getValue x ∈ controlVars st' ∧ getValue y ∈ controlVars st'.
Proof.
  revert st i. induction blocks as [|b blocks IH]; intros st i Hi Hl Hk; [done|].
  simpl. destruct (blockBody cg b st) as [st1|] eqn:E; [|done]. simpl.
  intros H. destruct i as [|i]; simpl in Hi.
  - injection Hi as ->. unfold blockBody in E. rewrite Hl in E.
    destruct (nodesLoop cg block _ 0 _ _ st) as [[loc st2]|] eqn:E2; [|done].
    simpl in E. apply succsLoop_control in E.
    destruct (nodesLoop_binary _ _ _ _ _ _ _ _ _ _ _ _ Hk E2) as [Hx Hy].
    apply blocksLoop_control in H. rewrite <- E in Hx, Hy. set_solver.
  - by eapply IH.
Qed.

End ControlSet.

(** C5, as the code has it.  For the body [a = 0; b = 1; if n < 2 { return n }]
    the control set is {n, 2}: both operands of a bare binary test, as
    [getValue] prints them, go to the control set, in every graph. *)
Theorem binary_test_operands_in_control_set (ord : MapOrder) :
  (∃ out, genDot ord Samples.fibHead = Ok out
     ∧ controlSet (roles out) = {[ "n"; "2" ]})
  ∧ ∀ cg out i block k x op y,
      genDot ord cg = Ok out →
      Blocks cg !! i = Some block → Live block = true →
      Nodes block !! k = Some (NExpr (BinaryExpr x op y)) →
      getValue x ∈ controlSet (roles out) ∧ getValue y ∈ controlSet (roles out).
Proof.
  split.
  - eexists. split.
    + apply genDot_traverse. vm_compute. reflexivity.
    + vm_compute. reflexivity.
  - intros cg out i block k x op y Hg Hi Hl Hk.
    destruct (genDot_Ok_inv _ _ _ Hg) as [st Ht].
    rewrite (genDot_traverse ord _ _ Ht) in Hg. injection Hg as <-.
    cbn [roles]. unfold reconciled. cbn [controlSet].
    by eapply blocksLoop_binary.
Qed.

(** C5 as stated fails: the control set of that body is not {n}, whether
    the test arrives as a bare binary expression or as a conditional node. *)
Lemma fib_head_control_set_is_not_n :
  (∃ out, genDot inOrder Samples.fibHead = Ok out
     ∧ controlSet (roles out) ≠ {[ "n" ]})
  ∧ (∃ out, genDot inOrder Samples.fibHeadIf = Ok out
     ∧ controlSet (roles out) ≠ {[ "n" ]}).
Proof.
  split.
  - eexists. split; [vm_compute; reflexivity|].
    intros H. assert (Hin : "2" ∈ ({[ "n" ]} : gset string)).
    { rewrite <- H. vm_compute. reflexivity. }
    apply elem_of_singleton in Hin. done.
  - eexists. split; [vm_compute; reflexivity|].
    intros H. assert (Hin : "n < 2" ∈ ({[ "n" ]} : gset string)).
    { rewrite <- H. vm_compute. reflexivity. }
    apply elem_of_singleton in Hin. done.
Qed.

(** ** The trace edges and the order of the variables map *)

Lemma append_assoc (a b c : string) : (a +:+ b) +:+ c = a +:+ (b +:+ c).
Proof.
  induction a as [|x a IH]; [done|].
  change (String x ((a +:+ b) +:+ c) = String x (a +:+ (b +:+ c))). by rewrite IH.
Qed.

Lemma append_nil_r (a : string) : a +:+ EmptyString = a.
Proof.
  induction a as [|x a IH]; [done|].
  change (String x (a +:+ EmptyString) = String x a). by rewrite IH.
Qed.

Lemma foldl_append (f : string → string) (l : list string) (dot : string) :
  foldl (fun d k => d +:+ f k) dot l = dot +:+ concatAll (f <$> l).
Proof.
  revert dot. induction l as [|k l IH]; intros dot.
  - simpl. by rewrite append_nil_r.
  - rewrite fmap_cons.
    change (foldl (fun d k => d +:+ f k) (dot +:+ f k) l
            = dot +:+ (f k +:+ concatAll (f <$> l))).
    by rewrite IH, append_assoc.
Qed.

Lemma traceLoop_concat ord vars dot :
  traceLoop ord vars dot
  = dot +:+ concatAll ((fun k => traceEdges k (default [] (vars !! k)))
                      <$> rangeKeys ord (mapKeys vars)).
Proof. unfold traceLoop. apply foldl_append. Qed.

(** When one key at most contributes text, the order of the keys does not
    show in the concatenation. *)
Lemma concat_one_key (f : string → string) (k0 : string) (l : list string) :
  NoDup l → (∀ k, k ∈ l → k ≠ k0 → f k = EmptyString) →
  concatAll (f <$> l) = if decide (k0 ∈ l) then f k0 else EmptyString.
Proof.
  induction 1 as [|k l Hk Hnd IH]; intros Hf; [done|].
  rewrite fmap_cons.
  change (concatAll (f k :: (f <$> l))) with (f k +:+ concatAll (f <$> l)).
  rewrite IH by (intros; apply Hf; [by right|done]).
  destruct (decide (k = k0)) as [->|Hne].
  - rewrite (decide_True (P := k0 ∈ k0 :: l)) by left.
    rewrite (decide_False (P := k0 ∈ l)) by done. by rewrite append_nil_r.
  - rewrite (Hf k) by (done || left).
    change (EmptyString +:+ ?s) with s.
    apply decide_ext. rewrite elem_of_cons. naive_solver.
Qed.

Lemma concat_all_empty (f : string → string) (l : list string) :
  (∀ k, k ∈ l → f k = EmptyString) → concatAll (f <$> l) = EmptyString.
Proof.
  induction l as [|k l IH]; intros Hf; [done|].
  rewrite fmap_cons.
  change (concatAll (f k :: (f <$> l))) with (f k +:+ concatAll (f <$> l)).
  rewrite (Hf k) by left. change (EmptyString +:+ ?s) with s.
  apply IH. intros; apply Hf. by right.
Qed.

Lemma traceEdges_short varName nodes :
  length nodes ≤ 1 → traceEdges varName nodes = EmptyString.
Proof. intros Hl. unfold traceEdges. by rewrite decide_False by lia. Qed.

Lemma mapKeys_elem {V} (m : gmap string V) k : k ∈ mapKeys m ↔ is_Some (m !! k).
Proof.
  unfold mapKeys. rewrite list_elem_of_fmap. split.
  - intros [[k' x] [-> Hx]]. apply elem_of_map_to_list in Hx. by exists x.
  - intros [x Hx]. exists (k, x). split; [done|]. by apply elem_of_map_to_list.
Qed.

Lemma traceLoop_one_chain ord1 ord2 vars dot :
  atMostOneChain vars → traceLoop ord1 vars dot = traceLoop ord2 vars dot.
Proof.
  intros Hone. rewrite !traceLoop_concat. f_equal.
  set (f := fun k => traceEdges k (default [] (vars !! k))).
  assert (Hshort : ∀ k, f k ≠ EmptyString →
                        ∃ l, vars !! k = Some l ∧ 1 < length l).
  { intros k Hk. unfold f in Hk. destruct (vars !! k) as [l|] eqn:E; [|done].
    exists l. split; [done|]. simpl in Hk.
    destruct (decide (1 < length l)); [done|].
    exfalso. apply Hk. apply traceEdges_short. lia. }
  assert (Hnd : ∀ ord, NoDup (rangeKeys ord (mapKeys vars))).
  { intros ord. rewrite (rangeKeys_perm ord). apply NoDup_fst_map_to_list. }
  destruct (decide (Exists (fun k => f k ≠ EmptyString) (mapKeys vars))) as [Hex|Hnex].
  - apply Exists_exists in Hex as (k0 & Hin & Hk0).
    destruct (Hshort k0 Hk0) as (l0 & Hl0 & Hlen0).
    assert (Hother : ∀ ord k, k ∈ rangeKeys ord (mapKeys vars) → k ≠ k0 →
                              f k = EmptyString).
    { intros ord k _ Hne. destruct (decide (f k = EmptyString)) as [|Hk]; [done|].
      destruct (Hshort k Hk) as (l & Hl & Hlen). exfalso. apply Hne.
      by eapply Hone. }
    rewrite (concat_one_key f k0 _ (Hnd ord1) (Hother ord1)).
    rewrite (concat_one_key f k0 _ (Hnd ord2) (Hother ord2)).
    apply decide_ext. by rewrite !(rangeKeys_perm _).
  - assert (Hall : ∀ ord k, k ∈ rangeKeys ord (mapKeys vars) → f k = EmptyString).
    { intros ord k Hk. rewrite (rangeKeys_perm ord) in Hk.
      destruct (decide (f k = EmptyString)) as [|Hne]; [done|].
      exfalso. apply Hnex. apply Exists_exists. eauto. }
    by rewrite !concat_all_empty by apply Hall.
Qed.

(** C7, as the code has it.  The scores do not depend on the order in which
    the maps are ranged over: the four sets, the Chepin score and the
    cyclomatic complexity of two runs on one graph are the same, and one run
    aborts exactly when the other does.  The documents of the two runs are
    the same when the variables map is ranged over in the same order, and
    in any case when at most one variable has two or more recorded
    occurrences. *)
Theorem scores_fixed_document_up_to_map_order (ord1 ord2 : MapOrder) (cg : CFG) :
  (genDot ord1 cg = Panic ↔ genDot ord2 cg = Panic)
  ∧ ∀ o1 o2, genDot ord1 cg = Ok o1 → genDot ord2 cg = Ok o2 →
      roles o1 = roles o2
      ∧ chepinScore o1 = chepinScore o2
      ∧ cyclomaticComplexity o1 = cyclomaticComplexity o2
      ∧ ∀ st, traverse cg = Ok st →
          rangeKeys ord1 (mapKeys (variables st)) = rangeKeys ord2 (mapKeys (variables st))
          ∨ atMostOneChain (variables st) →
          document o1 = document o2.
Proof.
  split.
  - unfold genDot. destruct (traverse cg) as [st|]; simpl; [|done].
    destruct (countLive (Blocks cg)). done.
  - intros o1 o2 H1 H2. destruct (genDot_Ok_inv _ _ _ H1) as [st Ht].
    rewrite (genDot_traverse ord1 _ _ Ht) in H1.
    rewrite (genDot_traverse ord2 _ _ Ht) in H2.
    injection H1 as <-. injection H2 as <-. cbn [roles chepinScore cyclomaticComplexity document].
    split; [done|]. split; [done|]. split; [done|].
    intros st' Ht' Hor. rewrite Ht in Ht'. injection Ht' as <-.
    f_equal. f_equal. destruct Hor as [Heq|Hone].
    + unfold traceLoop. by rewrite Heq.
    + by apply traceLoop_one_chain.
Qed.

(** C7 as stated fails: with two variables that are each defined twice, two
    runs on the same graph that range over the variables map in different
    orders return different documents. *)
Lemma document_depends_on_map_order :
  ∃ o1 o2, genDot inOrder Samples.twoChains = Ok o1
    ∧ genDot reversed Samples.twoChains = Ok o2
    ∧ document o1 ≠ document o2.
Proof.
  eexists. eexists. split; [vm_compute; reflexivity|].
  split; [vm_compute; reflexivity|]. vm_compute. discriminate.
Qed.

(** ** Unrecognized kinds and malformed shapes *)



(** ** Break and continue *)

Lemma traceLoop_no_chain ord (vars : gmap string (list string)) dot :
  map_Forall (fun _ l => length l ≤ 1) vars → traceLoop ord vars dot = dot.
Proof.
  intros Hshort. rewrite traceLoop_concat, concat_all_empty; [apply append_nil_r|].
  intros k _. destruct (vars !! k) as [l|] eqn:E; [|done].
  apply traceEdges_short. by eapply Hshort.
Qed.

(** C4.  The loop the edge of a [break] or [continue] goes to is looked up
    in a variable that is reset for every block.  With the loop node in
    block 0 and the [continue] (or [break]) in the body block, the edge is
    emitted with an empty target, not with the loop node [block_0_node_0]
    as its target. *)
Theorem branch_edge_loses_loop_across_blocks (ord : MapOrder) :
  (∃ out, genDot ord Samples.loopContinue = Ok out
     ∧ contains (document out) (labelEdge "block_1_node_0" EmptyString "continue") = true
     ∧ contains (document out)
         (labelEdge "block_1_node_0" "block_0_node_0" "continue") = false)
  ∧ (∃ out, genDot ord Samples.loopBreak = Ok out
     ∧ contains (document out) (labelEdge "block_1_node_0" EmptyString "break") = true
     ∧ contains (document out)
         (labelEdge "block_1_node_0" "block_0_node_0" "break") = false).
Proof.
  split.
  - eexists. split; [apply genDot_traverse; vm_compute; reflexivity|].
    cbn [document]. rewrite traceLoop_no_chain.
    + split; vm_compute; reflexivity.
    + apply (bool_decide_eq_true_1 (map_Forall (fun _ l => length l ≤ 1) _)).
      vm_compute. reflexivity.
  - eexists. split; [apply genDot_traverse; vm_compute; reflexivity|].
    cbn [document]. rewrite traceLoop_no_chain.
    + split; vm_compute; reflexivity.
    + apply (bool_decide_eq_true_1 (map_Forall (fun _ l => length l ≤ 1) _)).
      vm_compute. reflexivity.
Qed.

(** ** Assignments *)

Lemma assignLhs_idents nodeID rhs j lhs st :
  assignLhs nodeID rhs j lhs st = assignIdents nodeID rhs (identsFrom j lhs) st.
Proof.
  revert j st. induction lhs as [|e lhs IH]; intros j st; [done|].
  destruct e; simpl; try apply IH.
  destruct (assignIdent nodeID rhs j Name st) as [st'|]; simpl; [apply IH|done].
Qed.

Lemma identsFrom_no_ident j lhs :
  Forall (fun e => isIdent e = false) lhs → identsFrom j lhs = [].
Proof.
  intros H. revert j. induction H as [|e lhs He _ IH]; intros j; [done|].
  destruct e; try done; apply IH.
Qed.

(** C10.  In an assignment a left-hand side that is not an identifier is
    passed over and leaves the state as it is: no label, no trace entry, no
    membership in a role set.  The statement has the effect of the loop body
    run for its identifier left-hand sides alone, each at its own position. *)
Theorem non_identifier_lhs_skipped (cg : CFG) (block : Block) (nodeID : string)
    (lhs rhs : list Expr) (loopID : string) (st : State) :
  classifyNode cg block nodeID (AssignStmt lhs rhs) loopID st
  = (st' ← assignIdents nodeID rhs (identsFrom 0 lhs) st; Ok (loopID, st'))
  ∧ (∀ j e rest st0, isIdent e = false →
       assignLhs nodeID rhs j (e :: rest) st0 = assignLhs nodeID rhs (S j) rest st0)
  ∧ (Forall (fun e => isIdent e = false) lhs →
       classifyNode cg block nodeID (AssignStmt lhs rhs) loopID st = Ok (loopID, st)).
Proof.
  split; [|split].
  - simpl. by rewrite assignLhs_idents.
  - intros j e rest st0 He. by destruct e.
  - intros Hno. simpl. by rewrite assignLhs_idents, identsFrom_no_ident.
Qed.

(** * Further properties of the code *)

(** ** The four role sets *)

(** X1.  When the score is computed every classified name (declared or
    assigned, modified, or used in a test) is in exactly one of the four
    sets: the sets are pairwise disjoint, the unused set included, and
    together they hold the classified names and nothing else. *)
Theorem role_sets_partition_classified_names (ord : MapOrder) (cg : CFG)
    (st : State) (out : Output) :
  traverse cg = Ok st → genDot ord cg = Ok out →
  unusedSet (roles out) ## dom (inputSet (roles out))
  ∧ unusedSet (roles out) ## modifiedSet (roles out)
  ∧ unusedSet (roles out) ## controlSet (roles out)
  ∧ dom (inputSet (roles out)) ∪ modifiedSet (roles out)
      ∪ controlSet (roles out) ∪ unusedSet (roles out)
    = classifiedNames st.
Proof.
  intros Ht Hg. rewrite (genDot_traverse ord _ _ Ht) in Hg. injection Hg as <-.
  cbn [roles]. rewrite reconciled_input_dom, reconciled_unused.
  unfold reconciled, classifiedNames. cbn [modifiedSet controlSet].
  repeat split.
  - set_solver.
  - set_solver.
  - set_solver.
  - apply set_eq. intros x. set_unfold.
    destruct (decide (x ∈ controlVars st)); [tauto|].
    destruct (decide (x ∈ modifiedVars st)); [tauto|].
    destruct (decide (inputVars st !! x = Some 1)); tauto.
Qed.

Lemma size_four_disjoint (A B C D : gset string) :
  A ## B → A ## C → A ## D → B ## C → B ## D → C ## D →
  size (A ∪ B ∪ C ∪ D) = size A + size B + size C + size D.
Proof.
  intros. rewrite !size_union by set_solver. done.
Qed.

(** X2.  The Chepin score lies between half the number of classified names
    and three times that number. *)
Theorem chepin_score_bounds (ord : MapOrder) (cg : CFG) (st : State) (out : Output) :
  traverse cg = Ok st → genDot ord cg = Ok out →
  ((1 # 2) * inject_Z (Z.of_nat (size (classifiedNames st))) <= chepinScore out)%Q
  ∧ (chepinScore out <= 3 * inject_Z (Z.of_nat (size (classifiedNames st))))%Q.
Proof.
  intros Ht Hg.
  assert (Hroles : roles out = reconciled st ∧ chepinScore out = chepinOf (reconciled st)).
  { rewrite (genDot_traverse ord _ _ Ht) in Hg. by injection Hg as <-. }
  destruct Hroles as [Hr HQ]. rewrite HQ. unfold chepinOf.
  rewrite <- size_dom.
  assert (Hn : size (classifiedNames st)
               = size (dom (inputSet (reconciled st)))
                 + size (modifiedSet (reconciled st))
                 + size (controlSet (reconciled st))
                 + size (unusedSet (reconciled st))).
  { rewrite <- size_four_disjoint.
    - f_equal. rewrite reconciled_input_dom, reconciled_unused.
      unfold reconciled, classifiedNames. cbn [modifiedSet controlSet].
      apply set_eq. intros x. set_unfold.
      destruct (decide (x ∈ controlVars st)); [tauto|].
      destruct (decide (x ∈ modifiedVars st)); [tauto|].
      destruct (decide (inputVars st !! x = Some 1)); tauto.
    - rewrite reconciled_input_dom. unfold reconciled. cbn [modifiedSet]. set_solver.
    - rewrite reconciled_input_dom. unfold reconciled. cbn [controlSet]. set_solver.
    - rewrite reconciled_input_dom, reconciled_unused. set_solver.
    - unfold reconciled. cbn [modifiedSet controlSet]. set_solver.
    - rewrite reconciled_unused. unfold reconciled. cbn [modifiedSet]. set_solver.
    - rewrite reconciled_unused. unfold reconciled. cbn [controlSet]. set_solver. }
  rewrite Hn. unfold chepin.
  generalize (size (dom (inputSet (reconciled st)))) as p.
  generalize (size (modifiedSet (reconciled st))) as m.
  generalize (size (controlSet (reconciled st))) as c.
  generalize (size (unusedSet (reconciled st))) as t.
  intros t c m p.
  rewrite !Nat2Z.inj_add, !inject_Z_plus.
  assert (0 <= inject_Z (Z.of_nat p))%Q by (change 0%Q with (inject_Z 0); rewrite <- Zle_Qle; lia).
  assert (0 <= inject_Z (Z.of_nat m))%Q by (change 0%Q with (inject_Z 0); rewrite <- Zle_Qle; lia).
  assert (0 <= inject_Z (Z.of_nat c))%Q by (change 0%Q with (inject_Z 0); rewrite <- Zle_Qle; lia).
  assert (0 <= inject_Z (Z.of_nat t))%Q by (change 0%Q with (inject_Z 0); rewrite <- Zle_Qle; lia).
  split; lra.
Qed.

(** ** The traversal only adds *)

Lemma extends_refl st : extends st st.
Proof.
  repeat split; try done.
  - exists EmptyString. by rewrite append_nil_r.
  - intros name. exists []. by rewrite app_nil_r.
Qed.

Lemma extends_trans st1 st2 st3 : extends st1 st2 → extends st2 st3 → extends st1 st3.
Proof.
  intros (Hd1 & Hv1 & Hi1 & Hm1 & Hc1) (Hd2 & Hv2 & Hi2 & Hm2 & Hc2).
  repeat split.
  - destruct Hd1 as [s1 E1], Hd2 as [s2 E2]. exists (s1 +:+ s2).
    by rewrite E2, E1, append_assoc.
  - intros name. destruct (Hv1 name) as [l1 E1], (Hv2 name) as [l2 E2].
    exists (l1 ++ l2). by rewrite E2, E1, app_assoc.
  - intros name. specialize (Hi1 name). specialize (Hi2 name). lia.
  - set_solver.
  - set_solver.
Qed.

Lemma extends_emit s st : extends st (emit s st).
Proof.
  repeat split; try done; simpl.
  - by exists s.
  - intros name. exists []. by rewrite app_nil_r.
Qed.

Lemma extends_recordVar name nodeID st : extends st (recordVar name nodeID st).
Proof.
  repeat split; try done; simpl.
  - exists EmptyString. by rewrite append_nil_r.
  - intros name'. destruct (decide (name = name')) as [->|Hne].
    + rewrite lookup_insert_eq. by exists [nodeID].
    + rewrite lookup_insert_ne by done. exists []. by rewrite app_nil_r.
Qed.

Lemma extends_incInput name st : extends st (incInput name st).
Proof.
  repeat split; try done; simpl.
  - exists EmptyString. by rewrite append_nil_r.
  - intros name'. exists []. by rewrite app_nil_r.
  - intros name'. destruct (decide (name = name')) as [->|Hne].
    + rewrite lookup_insert_eq. simpl. lia.
    + by rewrite lookup_insert_ne.
Qed.

Lemma extends_markModified name st : extends st (markModified name st).
Proof.
  repeat split; try done; simpl.
  - exists EmptyString. by rewrite append_nil_r.
  - intros name'. exists []. by rewrite app_nil_r.
  - set_solver.
Qed.

Lemma extends_markControl name st : extends st (markControl name st).
Proof.
  repeat split; try done; simpl.
  - exists EmptyString. by rewrite append_nil_r.
  - intros name'. exists []. by rewrite app_nil_r.
  - set_solver.
Qed.

Ltac extends_step :=
  repeat first
    [ apply extends_refl
    | (eapply extends_trans; [|apply extends_emit])
    | (eapply extends_trans; [|apply extends_recordVar])
    | (eapply extends_trans; [|apply extends_incInput])
    | (eapply extends_trans; [|apply extends_markModified])
    | (eapply extends_trans; [|apply extends_markControl]) ].

Section Extends.

Variable cg : CFG.

Lemma declNames_extends absent nodeID values j names st :
  extends st (declNames absent nodeID values j names st).
Proof.
  revert j st. induction names as [|name names IH]; intros j st; [apply extends_refl|].
  simpl. eapply extends_trans; [|apply IH]. extends_step.
Qed.

Lemma assignLhs_extends nodeID rhs j lhs st st' :
  assignLhs nodeID rhs j lhs st = Ok st' → extends st st'.
Proof.
  revert j st. induction lhs as [|e lhs IH]; intros j st; simpl.
  - intros [= <-]. apply extends_refl.
  - destruct e; try apply IH.
    unfold assignIdent. destruct (rhs !! j) as [e|]; [|done]. simpl.
    intros H. apply IH in H. eapply extends_trans; [|exact H].
    destruct (isBinaryExpr e); extends_step.
Qed.

Lemma returnResults_extends nodeID results st :
  extends st (returnResults nodeID results st).2.
Proof.
  unfold returnResults.
  assert (H : ∀ values st0,
             extends st0
               (foldl (fun '(values, st) r =>
                         let value := getValue r in
                         (values ++ [value], recordVar value nodeID st))
                      (values, st0) results).2).
  { induction results as [|r results IH]; intros values st0; [apply extends_refl|].
    simpl. eapply extends_trans; [|apply IH]. apply extends_recordVar. }
  apply H.
Qed.

Lemma branchTo_extends block nodeID k color st st' :
  branchTo cg block nodeID k color st = Ok st' → extends st st'.
Proof.
  unfold branchTo. destruct (succAt block k) as [s|]; [|done]. simpl.
  destruct (blockAt cg (sIndex s)) as [b|]; [|done]. simpl. intros [= <-].
  apply extends_emit.
Qed.

Lemma classifyNode_extends block nodeID node loopID st loopID' st' :
  classifyNode cg block nodeID node loopID st = Ok (loopID', st') → extends st st'.
Proof.
  destruct node as [v|d|lhs rhs|results|x|x tok|e|c hasElse|c|tok|t]; simpl.
  - intros [= _ <-]. apply declNames_extends.
  - destruct d as [[|[v| |] specs]| |]; try done.
    intros [= _ <-]. apply declNames_extends.
  - destruct (assignLhs nodeID rhs 0 lhs st) as [st1|] eqn:E; [|done]. simpl.
    intros [= _ <-]. by eapply assignLhs_extends.
  - pose proof (returnResults_extends nodeID results st) as H.
    destruct (returnResults nodeID results st) as [values st1].
    intros [= _ <-]. simpl in H. eapply extends_trans; [exact H|apply extends_emit].
  - destruct x; intros [= _ <-]; apply extends_emit.
  - destruct x; try done. intros [= _ <-]. extends_step.
  - intros [= _ <-]. destruct e as [| | | | |[]|]; simpl; extends_step.
  - match goal with |- context [branchTo cg block nodeID 0 ?c ?s] =>
      destruct (branchTo cg block nodeID 0 c s) as [st2|] eqn:E2 end; [|done].
    apply branchTo_extends in E2. simpl.
    assert (H2 : extends st st2) by (eapply extends_trans; [|exact E2]; extends_step).
    destruct hasElse.
    + destruct (branchTo cg block nodeID 1 "red" st2) as [st3|] eqn:E3; [|done].
      apply branchTo_extends in E3. simpl. intros [= _ <-].
      by eapply extends_trans.
    + by intros [= _ <-].
  - match goal with |- context [branchTo cg block nodeID 0 ?c ?s] =>
      destruct (branchTo cg block nodeID 0 c s) as [st2|] eqn:E2 end; [|done].
    apply branchTo_extends in E2. simpl.
    assert (H2 : extends st st2) by (eapply extends_trans; [|exact E2]; extends_step).
    destruct (branchTo cg block nodeID 1 "red" st2) as [st3|] eqn:E3; [|done].
    apply branchTo_extends in E3. simpl. intros [= _ <-].
    by eapply extends_trans.
  - destruct tok; intros [= _ <-]; extends_step.
  - intros [= _ <-]. apply extends_emit.
Qed.

Lemma nodesLoop_extends block blockID i nodes loc st loc' st' :
  nodesLoop cg block blockID i nodes loc st = Ok (loc', st') → extends st st'.
Proof.
  revert i loc st. induction nodes as [|node nodes IH]; intros i loc st; simpl.
  - intros [= _ <-]. apply extends_refl.
  - destruct (classifyNode cg block _ node _ st) as [[l st1]|] eqn:E; [|done].
    simpl. intros H. apply IH in H. apply classifyNode_extends in E.
    eapply extends_trans; [exact E|]. eapply extends_trans; [|exact H].
    destruct (isEmpty (prevNodeID loc)); extends_step.
Qed.

Lemma succEdge_extends lastNodeID s st st' :
  succEdge cg lastNodeID s st = Ok st' → extends st st'.
Proof.
  unfold succEdge. destruct (isEmpty lastNodeID).
  { intros [= <-]. apply extends_refl. }
  destruct (blockAt cg (sIndex s)) as [b|]; [|done]. simpl.
  case_decide; [intros [= <-]; apply extends_emit|].
  destruct (findNextBlockWithNodes cg (sIndex s)) as [[nb|]|]; [| |done];
    simpl; intros [= <-]; apply extends_emit.
Qed.

Lemma succsLoop_extends lastNodeID succs st st' :
  succsLoop cg lastNodeID succs st = Ok st' → extends st st'.
Proof.
  revert st. induction succs as [|s succs IH]; intros st; simpl.
  - intros [= <-]. apply extends_refl.
  - destruct (succEdge cg lastNodeID s st) as [st1|] eqn:E; [|done]. simpl.
    intros H. apply IH in H. apply succEdge_extends in E. by eapply extends_trans.
Qed.

Lemma blockBody_extends block st st' :
  blockBody cg block st = Ok st' → extends st st'.
Proof.
  unfold blockBody. destruct (Live block); [|intros [= <-]; apply extends_refl].
  destruct (nodesLoop cg block _ 0 _ _ st) as [[loc st1]|] eqn:E; [|done]. simpl.
  intros H. apply succsLoop_extends in H. apply nodesLoop_extends in E.
  by eapply extends_trans.
Qed.

Lemma blocksLoop_extends blocks st st' :
  blocksLoop cg blocks st = Ok st' → extends st st'.
Proof.
  revert st. induction blocks as [|b blocks IH]; intros st; simpl.
  - intros [= <-]. apply extends_refl.
  - destruct (blockBody cg b st) as [st1|] eqn:E; [|done]. simpl.
    intros H. apply IH in H. apply blockBody_extends in E. by eapply extends_trans.
Qed.

End Extends.

(** X3.  The traversal never takes back what it has recorded.  Classifying
    a node, rendering a block or rendering a run of blocks leaves a state
    in which the document and every variable trace have only grown at
    their end, no count of a name has dropped, and the modified and the
    control set have lost no member. *)
Theorem traversal_only_adds (cg : CFG) :
  (∀ block nodeID node loopID st loopID' st',
     classifyNode cg block nodeID node loopID st = Ok (loopID', st') → extends st st')
  ∧ (∀ block st st', blockBody cg block st = Ok st' → extends st st')
  ∧ (∀ blocks st st', blocksLoop cg blocks st = Ok st' → extends st st').
Proof.
  split; [|split].
  - apply classifyNode_extends.
  - apply blockBody_extends.
  - apply blocksLoop_extends.
Qed.

(** ** The frame of the document *)

Lemma replaceFrom_other c s :
  c ≠ "l"%char →
  Cleanup.replaceFrom 0 (String c s) = String c (Cleanup.replaceFrom 0 s).
Proof.
  intros Hc. cbn [Cleanup.replaceFrom].
  assert (Hm : Cleanup.matchAt (String c s) = None).
  { unfold Cleanup.matchAt.
    change ("label=" +:+ dq +:+ "block ")
      with (String "l"%char ("abel=" +:+ dq +:+ "block ")).
    cbn [Cleanup.stripPrefix].
    destruct (Ascii.eqb_spec "l"%char c) as [<-|_]; [done|]. done. }
  by rewrite Hm.
Qed.

Lemma stripBlockPrefix_header s :
  Cleanup.stripBlockPrefix ("digraph G {" +:+ nl +:+ s)
  = "digraph G {" +:+ nl +:+ Cleanup.stripBlockPrefix s.
Proof.
  unfold Cleanup.stripBlockPrefix.
  change ("digraph G {" +:+ nl +:+ s)
    with (String "d" (String "i" (String "g" (String "r" (String "a" (String "p"
           (String "h" (String " " (String "G" (String " " (String "{"
           (String "010" s)))))))))))).
  by rewrite !replaceFrom_other by done.
Qed.

(** X4.  Every document a run returns opens with the line [digraph G {] and
    ends with the line [}]. *)
Theorem document_is_framed (ord : MapOrder) (cg : CFG) (out : Output) :
  genDot ord cg = Ok out →
  ∃ body, document out = "digraph G {" +:+ nl +:+ body +:+ "}" +:+ nl.
Proof.
  intros Hg. destruct (genDot_Ok_inv _ _ _ Hg) as [st Ht].
  rewrite (genDot_traverse ord _ _ Ht) in Hg. injection Hg as <-. cbn [document].
  destruct (blocksLoop_extends cg _ _ _ Ht) as [[s Hs] _].
  rewrite traceLoop_concat, Hs.
  change (dot initState) with ("digraph G {" +:+ nl).
  generalize (concatAll ((fun k => traceEdges k (default [] (variables st !! k)))
                           <$> rangeKeys ord (mapKeys (variables st)))).
  intros c. exists (Cleanup.stripBlockPrefix (s +:+ c)).
  rewrite (append_assoc ("digraph G {" +:+ nl) s c).
  rewrite (append_assoc "digraph G {" nl (s +:+ c)).
  rewrite stripBlockPrefix_header.
  rewrite (append_assoc "digraph G {" _ ("}" +:+ nl)).
  rewrite (append_assoc nl _ ("}" +:+ nl)).
  reflexivity.
Qed.

(** ** Blocks without statements *)

Lemma succsLoop_no_last cg succs st : succsLoop cg EmptyString succs st = Ok st.
Proof. induction succs as [|s succs IH]; [done|]. simpl. exact IH. Qed.

Lemma blockBody_no_nodes cg block st :
  Live block = false ∨ Nodes block = [] → blockBody cg block st = Ok st.
Proof.
  intros H. unfold blockBody. destruct (Live block) eqn:El; [|done].
  destruct H as [?|Hn]; [done|]. rewrite Hn. simpl. apply succsLoop_no_last.
Qed.

Lemma blocksLoop_no_nodes cg blocks st :
  (∀ b, b ∈ blocks → Live b = false ∨ Nodes b = []) → blocksLoop cg blocks st = Ok st.
Proof.
  induction blocks as [|b blocks IH]; intros H; [done|].
  simpl. rewrite blockBody_no_nodes by (apply H; left). simpl.
  apply IH. intros b' Hb'. apply H. by right.
Qed.

(** X5.  A block that is not live, or holds no statement, leaves the
    traversal state as it is and cannot make the run panic, whatever its
    successors are (they may even name no block of the graph).  A graph in
    which every live block is without statements renders as the bare
    wrapper, with four empty role sets and a Chepin score of zero. *)
Theorem blocks_without_statements_are_silent (ord : MapOrder) (cg : CFG) :
  (∀ block st, Live block = false ∨ Nodes block = [] →
     blockBody cg block st = Ok st)
  ∧ ((∀ b, b ∈ Blocks cg → Live b = false ∨ Nodes b = []) →
     ∃ out, genDot ord cg = Ok out
       ∧ document out = "digraph G {" +:+ nl +:+ "}" +:+ nl
       ∧ inputSet (roles out) = ∅ ∧ modifiedSet (roles out) = ∅
       ∧ controlSet (roles out) = ∅ ∧ unusedSet (roles out) = ∅
       ∧ (chepinScore out == 0)%Q).
Proof.
  split; [intros; by apply blockBody_no_nodes|].
  intros Hall.
  assert (Ht : traverse cg = Ok initState) by (by apply blocksLoop_no_nodes).
  eexists. split; [by apply genDot_traverse|]. cbn [document roles chepinScore].
  split.
  { unfold traceLoop, mapKeys. simpl variables. rewrite map_to_list_empty. simpl.
    pose proof (rangeKeys_perm ord []) as Hp. apply Permutation_nil_r in Hp.
    rewrite Hp. done. }
  repeat split; vm_compute; reflexivity.
Qed.

(** ** Where the edges of a block start *)

Lemma nodesLoop_last cg block blockID i nodes loc st loc' st' :
  nodes ≠ [] →
  nodesLoop cg block blockID i nodes loc st = Ok (loc', st') →
  lastNodeID loc' = nodeName blockID (i + length nodes - 1)
  ∧ prevNodeID loc' = nodeName blockID (i + length nodes - 1).
Proof.
  revert i loc st. induction nodes as [|node nodes IH]; intros i loc st Hne; [done|].
  simpl. destruct (classifyNode cg block _ node _ st) as [[l st1]|]; [|done]. simpl.
  destruct nodes as [|node' nodes].
  - simpl. intros [= <- _]. simpl. replace (i + 1 - 1) with i by lia. done.
  - intros H. apply IH in H; [|done]. simpl length in *.
    replace (i + S (S (length nodes)) - 1) with (S i + S (length nodes) - 1) by lia.
    done.
Qed.

(** X6.  In a live block with statements the edges to the successors all
    leave from the last statement of the block: the block is rendered by
    the loop over its nodes followed by the loop over its successors with
    the identifier of the last node as the source. *)
Theorem successor_edges_leave_from_last_node (cg : CFG) (block : Block)
    (st st' : State) :
  Live block = true → Nodes block ≠ [] →
  blockBody cg block st = Ok st' →
  ∃ loc st1,
    nodesLoop cg block (blockName (Index block)) 0 (Nodes block) freshLocals st
    = Ok (loc, st1)
    ∧ lastNodeID loc
      = nodeName (blockName (Index block)) (length (Nodes block) - 1)
    ∧ succsLoop cg (nodeName (blockName (Index block)) (length (Nodes block) - 1))
        (Succs block) st1 = Ok st'.
Proof.
  intros Hl Hne. unfold blockBody. rewrite Hl.
  destruct (nodesLoop cg block _ 0 _ _ st) as [[loc st1]|] eqn:E; [|done]. simpl.
  intros H. exists loc, st1. split; [done|].
  destruct (nodesLoop_last _ _ _ _ _ _ _ _ _ Hne E) as [Hlast _].
  simpl in Hlast. split; [done|]. by rewrite <- Hlast.
Qed.

(** ** The cleanup pass *)

Section CleanupFacts.

Import Cleanup.

Lemma length_append (a b : string) :
  String.length (a +:+ b) = String.length a + String.length b.
Proof.
  induction a as [|c a IH]; [done|].
  change (S (String.length (a +:+ b)) = S (String.length a) + String.length b).
  by rewrite IH.
Qed.

Lemma stripPrefix_app p s : stripPrefix p (p +:+ s) = Some s.
Proof.
  induction p as [|c p IH]; [by destruct s|].
  change (stripPrefix (String c p) (String c (p +:+ s)) = Some s).
  cbn [stripPrefix]. by rewrite Ascii.eqb_refl.
Qed.

Lemma stripPrefix_length p s r :
  stripPrefix p s = Some r → String.length s = String.length p + String.length r.
Proof.
  revert s. induction p as [|c p IH]; intros s; [simpl; by intros [= ->]|].
  destruct s as [|c' s]; [done|]. cbn [stripPrefix].
  destruct (Ascii.eqb c c'); [|done]. intros H. apply IH in H. simpl. lia.
Qed.

Lemma skipDigits_app digits s :
  allChars isDigit digits = true →
  (match s with String c _ => isDigit c = false | EmptyString => True end) →
  skipDigits (digits +:+ s) = (String.length digits, s).
Proof.
  intros Hd Hs. induction digits as [|c digits IH].
  - destruct s as [|c s]; [done|]. simpl. by rewrite Hs.
  - simpl in Hd. apply andb_true_iff in Hd as [Hc Hd].
    change (skipDigits (String c (digits +:+ s)) = (S (String.length digits), s)).
    cbn [skipDigits]. rewrite Hc, (IH Hd). done.
Qed.

Lemma skipDigits_length s n r :
  skipDigits s = (n, r) → String.length s = n + String.length r.
Proof.
  revert n r. induction s as [|c s IH]; intros n r; [by intros [= <- <-]|].
  cbn [skipDigits]. destruct (isDigit c).
  - destruct (skipDigits s) as [n' r'] eqn:E. intros [= <- <-].
    specialize (IH _ _ eq_refl). simpl. lia.
  - by intros [= <- <-].
Qed.

Lemma untilQuote_app g s :
  allChars (fun c => negb (isQuote c)) g = true →
  untilQuote (g +:+ dq +:+ s) = Some (g, s).
Proof.
  intros Hg. induction g as [|c g IH]; [done|].
  simpl in Hg. apply andb_true_iff in Hg as [Hc Hg].
  change (untilQuote (String c (g +:+ dq +:+ s)) = Some (String c g, s)).
  cbn [untilQuote]. destruct (isQuote c); [done|]. by rewrite (IH Hg).
Qed.

Lemma untilQuote_length s g r :
  untilQuote s = Some (g, r) → String.length s = String.length g + 1 + String.length r.
Proof.
  revert g r. induction s as [|c s IH]; intros g r; [done|].
  cbn [untilQuote]. destruct (isQuote c).
  - intros [= <- <-]. simpl. lia.
  - destruct (untilQuote s) as [[g' r']|] eqn:E; [|done]. simpl.
    intros [= <- <-]. specialize (IH _ _ eq_refl). simpl. lia.
Qed.

(** A match is at least sixteen characters longer than what it captures. *)
Lemma matchAt_length s g r :
  matchAt s = Some (g, r) →
  String.length g + String.length r + 16 ≤ String.length s ∧ g ≠ EmptyString.
Proof.
  unfold matchAt.
  destruct (stripPrefix _ s) as [s1|] eqn:E1; [|done]. cbn [mbind option_bind].
  destruct (skipDigits s1) as [n s2] eqn:E2.
  destruct (n =? 0) eqn:En; [done|].
  destruct (stripPrefix " " s2) as [s3|] eqn:E3; [|done]. cbn [mbind option_bind].
  destruct (untilQuote s3) as [[g' r']|] eqn:E4; [|done]. cbn [mbind option_bind].
  destruct (isEmpty g') eqn:Eg; [done|]. intros [= <- <-].
  apply stripPrefix_length in E1, E3. apply skipDigits_length in E2.
  apply untilQuote_length in E4. apply Nat.eqb_neq in En.
  rewrite !length_append in E1. simpl in E1, E3.
  split; [lia|]. by destruct g'.
Qed.

Lemma replaceFrom_skip a s :
  replaceFrom (String.length a) (a +:+ s) = replaceFrom 0 s.
Proof.
  induction a as [|c a IH]; [by destruct s|].
  change (replaceFrom (S (String.length a)) (String c (a +:+ s)) = replaceFrom 0 s).
  cbn [replaceFrom]. exact IH.
Qed.

Lemma replaceFrom_length k s :
  String.length (replaceFrom k s) ≤ String.length s - k.
Proof.
  revert k. induction s as [|c s IH]; intros k; [done|].
  cbn [replaceFrom]. destruct k as [|k].
  - destruct (matchAt (String c s)) as [[g r]|] eqn:E.
    + apply matchAt_length in E as [E _].
      rewrite !length_append. specialize (IH (String.length (String c s) - String.length r - 1)).
      simpl in *. lia.
    + specialize (IH 0). simpl. lia.
  - specialize (IH k). simpl. lia.
Qed.

End CleanupFacts.

(** X7.  The cleanup pass rewrites a label that opens with [block],
    a number and a space to the rest of the label: for digits [n] and a
    text [g] without a double quote, [label="block n g"] followed by any
    text becomes [label="g"] followed by the cleanup of that text. *)
Theorem cleanup_strips_block_prefix (digits g rest : string) :
  digits ≠ EmptyString → allChars Cleanup.isDigit digits = true →
  g ≠ EmptyString → allChars (fun c => negb (Cleanup.isQuote c)) g = true →
  Cleanup.stripBlockPrefix
    (("label=" +:+ dq +:+ "block ") +:+ digits +:+ " " +:+ g +:+ dq +:+ rest)
  = "label=" +:+ dq +:+ g +:+ dq +:+ Cleanup.stripBlockPrefix rest.
Proof.
  intros Hd Hdig Hg Hq. unfold Cleanup.stripBlockPrefix.
  set (s := ("label=" +:+ dq +:+ "block ") +:+ digits +:+ " " +:+ g +:+ dq +:+ rest).
  assert (Hm : Cleanup.matchAt s = Some (g, rest)).
  { unfold Cleanup.matchAt, s. rewrite stripPrefix_app. cbn [mbind option_bind].
    rewrite (skipDigits_app digits) by done.
    destruct (String.length digits =? 0) eqn:E.
    { apply Nat.eqb_eq in E. by destruct digits. }
    rewrite (stripPrefix_app " "). cbn [mbind option_bind].
    rewrite untilQuote_app by done. cbn [mbind option_bind]. by destruct g. }
  assert (Hs : s = String "l" (("abel=" +:+ dq +:+ "block ") +:+ digits +:+ " "
                               +:+ g +:+ dq +:+ rest)) by done.
  rewrite Hs. cbn [Cleanup.replaceFrom]. rewrite <- Hs, Hm. do 3 f_equal.
  set (mid := ("abel=" +:+ dq +:+ "block ") +:+ digits +:+ " " +:+ g +:+ dq).
  assert (Hmid : ("abel=" +:+ dq +:+ "block ") +:+ digits +:+ " " +:+ g +:+ dq +:+ rest
                 = mid +:+ rest).
  { unfold mid. by rewrite !append_assoc. }
  rewrite Hmid.
  replace (String.length s - String.length rest - 1) with (String.length mid).
  - by rewrite replaceFrom_skip.
  - assert (Hlen : String.length s = S (String.length mid + String.length rest)).
    { rewrite Hs, Hmid. cbn [String.length]. by rewrite length_append. }
    clearbody s mid. lia.
Qed.

Lemma stripPrefix_no_prefix p s :
  String.prefix p s = false → Cleanup.stripPrefix p s = None.
Proof.
  revert s. induction p as [|a p IH]; intros s; [by destruct s|].
  destruct s as [|b s]; [done|]. cbn [String.prefix Cleanup.stripPrefix].
  destruct (ascii_dec a b) as [->|Hne].
  - rewrite Ascii.eqb_refl. apply IH.
  - intros _. by apply Ascii.eqb_neq in Hne as ->.
Qed.

(** X8.  The cleanup pass never lengthens a document, and it leaves a
    document in which no label opens with the word [block] and a space as
    it is. *)
Theorem cleanup_never_lengthens (s : string) :
  String.length (Cleanup.stripBlockPrefix s) ≤ String.length s
  ∧ (contains s ("label=" +:+ dq +:+ "block ") = false →
     Cleanup.stripBlockPrefix s = s).
Proof.
  split.
  - pose proof (replaceFrom_length 0 s). unfold Cleanup.stripBlockPrefix. lia.
  - unfold Cleanup.stripBlockPrefix. induction s as [|c s IH]; [done|].
    intros H. cbn [contains] in H. apply orb_false_iff in H as [Hp H].
    cbn [Cleanup.replaceFrom]. unfold Cleanup.matchAt.
    rewrite (stripPrefix_no_prefix _ _ Hp). cbn [mbind option_bind].
    by rewrite IH.
Qed.

(** ** Escaped labels of call statements *)

Lemma escapeQuotes_escaped b s : quotesEscaped b (escapeQuotes s) = true.
Proof.
  revert b. induction s as [|c s IH]; intros b; [done|].
  cbn [escapeQuotes]. destruct (Ascii.eqb c "034") eqn:Ec.
  - change (backslash +:+ dq +:+ escapeQuotes s)
      with (String "092" (String "034" (escapeQuotes s))).
    cbn [quotesEscaped]. rewrite IH. done.
  - cbn [quotesEscaped]. rewrite Ec, IH. done.
Qed.

Lemma escapeQuotes_no_quote s :
  allChars (fun c => negb (Ascii.eqb c "034")) s = true → escapeQuotes s = s.
Proof.
  induction s as [|c s IH]; [done|]. cbn [allChars escapeQuotes].
  intros H. apply andb_true_iff in H as [Hc H].
  apply negb_true_iff in Hc. rewrite Hc. by rewrite IH.
Qed.

(** X9.  The label of a call statement is written with every double quote
    behind a backslash, and is the plain [callee(arguments)] text when that
    text has no double quote. *)
Theorem call_statement_label_is_escaped (cg : CFG) (block : Block)
    (nodeID : string) (f : Expr) (args : list Expr) (loopID : string) (st : State) :
  ∃ label,
    classifyNode cg block nodeID (ExprStmt (CallExpr f args)) loopID st
    = Ok (loopID, emit (nodeLine nodeID label) st)
    ∧ quotesEscaped false label = true
    ∧ (allChars (fun c => negb (Ascii.eqb c "034")) (callLabel f args) = true →
       label = callLabel f args).
Proof.
  exists (escapeQuotes (callLabel f args)). split; [done|]. split.
  - apply escapeQuotes_escaped.
  - apply escapeQuotes_no_quote.
Qed.

(** ** The edges of one trace *)

Lemma tracePairs_zip varName nodes :
  tracePairs varName nodes
  = concatAll (zip_with (fun a b => traceEdge a b varName) nodes (tail nodes)).
Proof.
  induction nodes as [|a nodes IH]; [done|].
  destruct nodes as [|b nodes]; [done|].
  change (traceEdge a b varName +:+ tracePairs varName (b :: nodes)
          = traceEdge a b varName
            +:+ concatAll (zip_with (fun a b => traceEdge a b varName)
                             (b :: nodes) nodes)).
  by rewrite IH.
Qed.

(** X10.  For a name with n recorded nodes the trace loop writes n − 1
    edges, none when n is 0 or 1: one edge from each node to the next, in
    the order of the trace. *)
Theorem trace_edges_link_consecutive_nodes (varName : string) (nodes : list string) :
  ∃ edges,
    traceEdges varName nodes = concatAll edges
    ∧ length edges = length nodes - 1
    ∧ ∀ i a b, nodes !! i = Some a → nodes !! S i = Some b →
        edges !! i = Some (traceEdge a b varName).
Proof.
  exists (zip_with (fun a b => traceEdge a b varName) nodes (tail nodes)).
  split; [|split].
  - unfold traceEdges. case_decide as Hl; [apply tracePairs_zip|].
    destruct nodes as [|a [|b nodes]]; [done|done|simpl in Hl; lia].
  - rewrite length_zip_with. destruct nodes as [|a nodes]; cbn [length tail]; lia.
  - intros i a b Ha Hb. apply lookup_zip_with_Some. exists a, b.
    split; [done|]. split; [done|]. by rewrite lookup_tail.
Qed.

(** ** Counts and traces *)

Section CountsTraced.

Variable cg : CFG.

Lemma countsTraced_emit s st : countsTraced st → countsTraced (emit s st).
Proof. done. Qed.

Lemma countsTraced_markModified name st :
  countsTraced st → countsTraced (markModified name st).
Proof. done. Qed.

Lemma countsTraced_markControl name st :
  countsTraced st → countsTraced (markControl name st).
Proof. done. Qed.

Lemma countsTraced_recordVar name nodeID st :
  countsTraced st → countsTraced (recordVar name nodeID st).
Proof.
  intros H name' n Hn. simpl in *. destruct (H name' n Hn) as [H1 H2].
  split; [done|]. destruct (decide (name = name')) as [->|Hne].
  - rewrite lookup_insert_eq. simpl. rewrite length_app. lia.
  - by rewrite lookup_insert_ne.
Qed.

Lemma countsTraced_count name nodeID st :
  countsTraced st → countsTraced (incInput name (recordVar name nodeID st)).
Proof.
  intros H name' n Hn. simpl in *. destruct (decide (name = name')) as [->|Hne].
  - rewrite lookup_insert_eq in Hn. injection Hn as <-.
    rewrite lookup_insert_eq. simpl. rewrite length_app. simpl.
    destruct (inputVars st !! name') as [n|] eqn:E; simpl.
    + destruct (H name' n E). lia.
    + lia.
  - rewrite lookup_insert_ne in Hn by done. rewrite lookup_insert_ne by done.
    by apply H.
Qed.

Lemma declNames_countsTraced absent nodeID values j names st :
  countsTraced st → countsTraced (declNames absent nodeID values j names st).
Proof.
  revert j st. induction names as [|name names IH]; intros j st H; [done|].
  simpl. apply IH. apply countsTraced_count. by apply countsTraced_emit.
Qed.

Lemma assignLhs_countsTraced nodeID rhs j lhs st st' :
  assignLhs nodeID rhs j lhs st = Ok st' → countsTraced st → countsTraced st'.
Proof.
  revert j st. induction lhs as [|e lhs IH]; intros j st; simpl.
  - by intros [= <-].
  - destruct e; try apply IH.
    unfold assignIdent. destruct (rhs !! j) as [e|]; [|done]. simpl.
    intros H Hc. eapply IH; [exact H|].
    destruct (isBinaryExpr e);
      [apply countsTraced_markModified|]; apply countsTraced_count;
      by apply countsTraced_emit.
Qed.

Lemma returnResults_countsTraced nodeID results st :
  countsTraced st → countsTraced (returnResults nodeID results st).2.
Proof.
  unfold returnResults.
  assert (H : ∀ values st0, countsTraced st0 →
             countsTraced
               (foldl (fun '(values, st) r =>
                         let value := getValue r in
                         (values ++ [value], recordVar value nodeID st))
                      (values, st0) results).2).
  { induction results as [|r results IH]; intros values st0 H0; [done|].
    simpl. apply IH. by apply countsTraced_recordVar. }
  apply H.
Qed.

Lemma branchTo_countsTraced block nodeID k color st st' :
  branchTo cg block nodeID k color st = Ok st' → countsTraced st → countsTraced st'.
Proof.
  unfold branchTo. destruct (succAt block k) as [s|]; [|done]. simpl.
  destruct (blockAt cg (sIndex s)) as [b|]; [|done]. simpl. by intros [= <-].
Qed.

Lemma classifyNode_countsTraced block nodeID node loopID st loopID' st' :
  classifyNode cg block nodeID node loopID st = Ok (loopID', st') →
  countsTraced st → countsTraced st'.
Proof.
  destruct node as [v|d|lhs rhs|results|x|x tok|e|c hasElse|c|tok|t]; simpl.
  - intros [= _ <-]. apply declNames_countsTraced.
  - destruct d as [[|[v| |] specs]| |]; try done.
    intros [= _ <-]. apply declNames_countsTraced.
  - destruct (assignLhs nodeID rhs 0 lhs st) as [st1|] eqn:E; [|done]. simpl.
    intros [= _ <-]. by eapply assignLhs_countsTraced.
  - pose proof (returnResults_countsTraced nodeID results st) as H.
    destruct (returnResults nodeID results st) as [values st1].
    intros [= _ <-] Hc. by apply H.
  - destruct x; by intros [= _ <-].
  - destruct x; try done. intros [= _ <-] Hc.
    apply countsTraced_markModified, countsTraced_recordVar. done.
  - intros [= _ <-]. by destruct e as [| | | | |[]|].
  - match goal with |- context [branchTo cg block nodeID 0 ?c ?s] =>
      destruct (branchTo cg block nodeID 0 c s) as [st2|] eqn:E2 end; [|done].
    simpl. destruct hasElse.
    + destruct (branchTo cg block nodeID 1 "red" st2) as [st3|] eqn:E3; [|done].
      simpl. intros [= _ <-] Hc.
      eapply branchTo_countsTraced; [exact E3|].
      eapply branchTo_countsTraced; [exact E2|]. done.
    + intros [= _ <-] Hc. eapply branchTo_countsTraced; [exact E2|]. done.
  - match goal with |- context [branchTo cg block nodeID 0 ?c ?s] =>
      destruct (branchTo cg block nodeID 0 c s) as [st2|] eqn:E2 end; [|done].
    simpl.
    destruct (branchTo cg block nodeID 1 "red" st2) as [st3|] eqn:E3; [|done].
    simpl. intros [= _ <-] Hc.
    eapply branchTo_countsTraced; [exact E3|].
    eapply branchTo_countsTraced; [exact E2|]. done.
  - destruct tok; by intros [= _ <-].
  - by intros [= _ <-].
Qed.

Lemma nodesLoop_countsTraced block blockID i nodes loc st loc' st' :
  nodesLoop cg block blockID i nodes loc st = Ok (loc', st') →
  countsTraced st → countsTraced st'.
Proof.
  revert i loc st. induction nodes as [|node nodes IH]; intros i loc st; simpl.
  - by intros [= _ <-].
  - destruct (classifyNode cg block _ node _ st) as [[l st1]|] eqn:E; [|done].
    simpl. intros H Hc. eapply IH; [exact H|].
    apply classifyNode_countsTraced in E; [|done].
    by destruct (isEmpty (prevNodeID loc)).
Qed.

Lemma succsLoop_countsTraced lastNodeID succs st st' :
  succsLoop cg lastNodeID succs st = Ok st' → countsTraced st → countsTraced st'.
Proof.
  revert st. induction succs as [|s succs IH]; intros st; simpl.
  - by intros [= <-].
  - destruct (succEdge cg lastNodeID s st) as [st1|] eqn:E; [|done]. simpl.
    intros H Hc. eapply IH; [exact H|]. clear H IH. unfold succEdge in E.
    destruct (isEmpty lastNodeID); [by injection E as <-|].
    destruct (blockAt cg (sIndex s)) as [b|]; [|done]. simpl in E.
    case_decide; [by injection E as <-|].
    destruct (findNextBlockWithNodes cg (sIndex s)) as [[nb|]|]; [| |done];
      simpl in E; by injection E as <-.
Qed.

Lemma blocksLoop_countsTraced blocks st st' :
  blocksLoop cg blocks st = Ok st' → countsTraced st → countsTraced st'.
Proof.
  revert st. induction blocks as [|b blocks IH]; intros st; simpl.
  - by intros [= <-].
  - destruct (blockBody cg b st) as [st1|] eqn:E; [|done]. simpl.
    intros H Hc. eapply IH; [exact H|]. clear H IH. unfold blockBody in E.
    destruct (Live b); [|by injection E as <-].
    destruct (nodesLoop cg b _ 0 _ _ st) as [[loc st2]|] eqn:E2; [|done].
    simpl in E. eapply succsLoop_countsTraced; [exact E|].
    by eapply nodesLoop_countsTraced.
Qed.

End CountsTraced.

(** X11.  A name that is still in the input set when the score is computed
    was declared or assigned at least twice, and the variable trace holds
    at least as many nodes for it, so that it has a chain of trace edges;
    a name in the unused set was declared or assigned exactly once. *)
Theorem input_names_counted_twice (ord : MapOrder) (cg : CFG) (st : State)
    (out : Output) :
  traverse cg = Ok st → genDot ord cg = Ok out →
  (∀ name n, inputSet (roles out) !! name = Some n →
     inputVars st !! name = Some n ∧ 2 ≤ n
     ∧ ∃ nodes, variables st !! name = Some nodes ∧ n ≤ length nodes)
  ∧ (∀ name, name ∈ unusedSet (roles out) → inputVars st !! name = Some 1).
Proof.
  intros Ht Hg. rewrite (genDot_traverse ord _ _ Ht) in Hg. injection Hg as <-.
  cbn [roles].
  assert (Hc : countsTraced st).
  { eapply blocksLoop_countsTraced; [exact Ht|]. intros name n Hn. done. }
  split.
  - intros name n Hn. rewrite reconciled_input_lookup in Hn.
    case_decide as Hin; [|done].
    destruct (Hc name n Hn) as [H1 H2].
    assert (Hne : n ≠ 1).
    { intros ->. apply elem_of_difference in Hin as [Hin Hnot]. apply Hnot.
      apply elem_of_filter. done. }
    split; [done|]. split; [lia|].
    destruct (variables st !! name) as [nodes|]; [by exists nodes|simpl in H2; lia].
  - intros name Hin. rewrite reconciled_unused in Hin.
    apply elem_of_filter in Hin as [H1 _]. done.
Qed.

(** ** The lookahead finds a nearest block *)

Section Nearest.

Variable cg : CFG.
Variable start : Z.

Let R := succStep cg.

Lemma levels_shift visited d l2 :
  searched cg visited l2 → levels cg start visited d [] l2 →
  levels cg start visited (S d) l2 [].
Proof.
  intros Hs (H1 & H2 & H3 & H4). repeat split.
  - done.
  - intros x Hx. by apply elem_of_nil in Hx.
  - intros m y Hm Hy. destruct (decide (m = d)) as [->|Hne].
    + destruct (H4 y Hy) as [?|Hin]; [done|]. by apply elem_of_nil in Hin.
    + apply (H3 m); [lia|done].
  - intros y Hy. apply nsteps_inv_r in Hy as (z & Hz & Hzy).
    destruct (H4 z Hz) as [Hv|Hin]; [|by apply elem_of_nil in Hin].
    destruct (Hs z Hv) as [_ Hsucc]. by apply Hsucc.
Qed.

Lemma bfs_nearest visited queue :
  ∀ d l1 l2, queue = l1 ++ l2 →
    searched cg visited queue → levels cg start visited d l1 l2 →
    match bfs cg visited queue with
    | Ok (Some b) =>
        ∃ n j, nsteps R n start j ∧ blockAt cg j = Ok b ∧ Nodes b ≠ []
          ∧ ∀ m j' b', m < n → nsteps R m start j' → blockAt cg j' = Ok b' →
              Nodes b' = []
    | _ => True
    end.
Proof.
  funelim (bfs cg visited queue); [done| |done].
  intros d l1 l2 Hq Hs Hl.
  (* the head of the queue is in the front level *)
  assert (Hfront : ∃ d' l1' l2', l1' ++ l2' = queue
            ∧ levels cg start visited d' (currentIndex :: l1') l2').
  { destruct l1 as [|x l1].
    - simpl in Hq. subst l2. exists (S d), queue, [].
      split; [by rewrite app_nil_r|]. apply levels_shift; [|done].
      done.
    - injection Hq as <- ->. by exists d, l1, l2. }
  clear d l1 l2 Hq Hl. destruct Hfront as (d & l1 & l2 & <- & (H1 & H2 & H3 & H4)).
  destruct (decide (0 < length (Nodes currentBlock))) as [Hn|Hn].
  - exists d, currentIndex. split; [apply H1; left|]. split; [done|].
    split; [intros He; rewrite He in Hn; simpl in Hn; lia|].
    intros m j' b' Hm Hj' Hb'. destruct (Hs j' (H3 m j' Hm Hj')) as [He _].
    by apply He.
  - assert (He : Nodes currentBlock = [])
      by (destruct (Nodes currentBlock); [done|simpl in Hn; lia]).
    set (fresh := filter (fun i => i ∉ {[currentIndex]} ∪ visited)
                    (sIndex <$> Succs currentBlock)) in *.
    apply (H Hn d l1 (l2 ++ fresh)); [by rewrite app_assoc| |].
    + (* the visited blocks stay searched *)
      intros v Hv. apply elem_of_union in Hv as [Hv|Hv].
      * apply elem_of_singleton in Hv as ->. split.
        -- intros b Hb'. rewrite Hb in Hb'. by injection Hb' as <-.
        -- intros w (b & s & Hb' & Hsin & <-).
           rewrite Hb in Hb'. injection Hb' as <-.
           destruct (decide (sIndex s ∈ {[currentIndex]} ∪ visited)) as [?|Hnin];
             [by left|right].
           apply elem_of_app. right. apply list_elem_of_filter. split; [done|].
           apply list_elem_of_fmap. eauto.
      * destruct (Hs v Hv) as [Hemp Hsucc]. split; [done|].
        intros w Hw. destruct (Hsucc w Hw) as [?|Hin].
        -- left. apply elem_of_union. by right.
        -- apply elem_of_cons in Hin as [->|Hin].
           ++ left. apply elem_of_union. left. by apply elem_of_singleton.
           ++ right. apply elem_of_app. by left.
    + repeat split.
      * intros x Hx. apply H1. by right.
      * intros x Hx. apply elem_of_app in Hx as [Hx|Hx]; [by apply H2|].
        apply list_elem_of_filter in Hx as [_ Hx].
        apply list_elem_of_fmap in Hx as (s & -> & Hsin).
        eapply nsteps_r; [apply H1; left|]. exists currentBlock, s. done.
      * intros m y Hm Hy. apply elem_of_union. right. by apply (H3 m).
      * intros y Hy. destruct (H4 y Hy) as [?|Hin].
        -- left. apply elem_of_union. by right.
        -- apply elem_of_cons in Hin as [->|Hin].
           ++ left. apply elem_of_union. left. by apply elem_of_singleton.
           ++ by right.
Qed.

End Nearest.

Lemma bfs_head_with_nodes cg visited x queue b :
  blockAt cg x = Ok b → Nodes b ≠ [] → bfs cg visited (x :: queue) = Ok (Some b).
Proof.
  intros Hb Hne. remember (x :: queue) as q eqn:Hq.
  funelim (bfs cg visited q).
  - rewrite Hb in Hb0. injection Hb0 as <-.
    rewrite decide_True; [done|]. destruct (Nodes currentBlock); [done|simpl; lia].
  - congruence.
Qed.

Lemma bfs_head_out_of_range cg visited x queue :
  blockAt cg x = Panic → bfs cg visited (x :: queue) = Panic.
Proof.
  intros Hb. remember (x :: queue) as q eqn:Hq.
  funelim (bfs cg visited q); [congruence|done].
Qed.

(** X12.  The block the lookahead returns is a nearest one: it holds a
    statement and lies some number n of successor steps from the start,
    and no block fewer than n steps from the start holds a statement.  A
    start block that holds a statement is returned itself; a start index
    that names no block makes the lookahead panic. *)
Theorem lookahead_finds_a_nearest_block (cg : CFG) (start : Z) :
  (∀ b, findNextBlockWithNodes cg start = Ok (Some b) →
     ∃ n j, nsteps (succStep cg) n start j ∧ blockAt cg j = Ok b ∧ Nodes b ≠ []
       ∧ ∀ m j' b', m < n → nsteps (succStep cg) m start j' →
           blockAt cg j' = Ok b' → Nodes b' = [])
  ∧ (∀ b, blockAt cg start = Ok b → Nodes b ≠ [] →
       findNextBlockWithNodes cg start = Ok (Some b))
  ∧ (blockAt cg start = Panic → findNextBlockWithNodes cg start = Panic).
Proof.
  split; [|split].
  - intros b Hb. unfold findNextBlockWithNodes in Hb.
    pose proof (bfs_nearest cg start ∅ [start] 0 [start] [] eq_refl) as H.
    rewrite Hb in H. apply H.
    + intros v Hv. by apply not_elem_of_empty in Hv.
    + repeat split.
      * intros x Hx. apply list_elem_of_singleton in Hx as ->. constructor.
      * intros x Hx. by apply elem_of_nil in Hx.
      * intros m y Hm. lia.
      * intros y Hy. inversion Hy; subst. right. left.
  - intros b Hb Hne. by apply bfs_head_with_nodes.
  - intros Hb. by apply bfs_head_out_of_range.
Qed.

(** ** Node identifiers *)

Lemma allChars_app p a b : allChars p (a +:+ b) = allChars p a && allChars p b.
Proof.
  induction a as [|c a IH]; [done|].
  change (p c && allChars p (a +:+ b) = p c && allChars p a && allChars p b).
  rewrite IH. by rewrite andb_assoc.
Qed.

Lemma append_cancel_l (a b c : string) : a +:+ b = a +:+ c → b = c.
Proof.
  induction a as [|x a IH]; [done|].
  change (String x (a +:+ b) = String x (a +:+ c) → b = c). intros [= H]. auto.
Qed.

Lemma split_at_first p c a a' r r' :
  p c = false → allChars p a = true → allChars p a' = true →
  a +:+ String c r = a' +:+ String c r' → a = a' ∧ r = r'.
Proof.
  intros Hc. revert a'. induction a as [|x a IH]; intros [|x' a'] Ha Ha'.
  - by intros [= ->].
  - intros [= <- _]. cbn [allChars] in Ha'. by rewrite Hc in Ha'.
  - intros [= -> _]. cbn [allChars] in Ha. by rewrite Hc in Ha.
  - intros [= -> H]. cbn [allChars] in Ha, Ha'.
    apply andb_true_iff in Ha as [_ Ha]. apply andb_true_iff in Ha' as [_ Ha'].
    destruct (IH a' Ha Ha' H) as [-> ->]. done.
Qed.

Lemma pretty_N_go_no_underscore x s :
  allChars notUnderscore s = true → allChars notUnderscore (pretty_N_go x s) = true.
Proof.
  revert s. induction (N.lt_wf_0 x) as [x _ IH]; intros s Hs.
  assert (x = 0 ∨ 0 < x)%N as [->|Hx] by lia.
  - by rewrite pretty_N_go_0.
  - rewrite pretty_N_go_step by done. apply IH.
    { by apply N.div_lt. }
    cbn [allChars]. rewrite Hs, andb_true_r.
    unfold pretty_N_char. by repeat case_match.
Qed.

Lemma itoa_no_underscore i : allChars notUnderscore (itoa i) = true.
Proof.
  assert (HN : ∀ p, allChars notUnderscore (pretty (N.pos p)) = true).
  { intros p. unfold pretty, pretty_N. case_decide; [done|].
    by apply pretty_N_go_no_underscore. }
  unfold itoa, pretty, pretty_Z. destruct i as [|p|p]; [done|apply HN|].
  rewrite allChars_app. unfold pretty, pretty_positive. by rewrite HN.
Qed.

(** X13.  Node identifiers do not collide: two nodes have the same
    identifier only if they are in blocks of the same index, at the same
    position.  The target an edge to a block is anchored at is the
    identifier of that block's first node, and no node identifier is the
    bare name of a block, which the fallback edge uses. *)
Theorem node_identifiers_are_unique (i i' : Z) (k k' : nat) :
  (nodeName (blockName i) k = nodeName (blockName i') k' → i = i' ∧ k = k')
  ∧ blockName i +:+ "_node_0" = nodeName (blockName i) 0
  ∧ nodeName (blockName i) k ≠ blockName i'.
Proof.
  assert (Hu : notUnderscore "_" = false) by done.
  split; [|split].
  - unfold nodeName, blockName. intros H.
    change (String "b" (String "l" (String "o" (String "c" (String "k" (String "_"
              (itoa i +:+ String "_" ("node_" +:+ itoa (Z.of_nat k))))))))
            = String "b" (String "l" (String "o" (String "c" (String "k" (String "_"
              (itoa i' +:+ String "_" ("node_" +:+ itoa (Z.of_nat k')))))))))
      in H.
    injection H as H.
    apply (split_at_first notUnderscore) in H as [Hi Hk];
      [|done|apply itoa_no_underscore..].
    apply append_cancel_l in Hk. unfold itoa in Hi, Hk.
    apply (inj pretty) in Hi. apply (inj pretty) in Hk. split; [done|lia].
  - done.
  - unfold nodeName, blockName. intros H.
    change (String "b" (String "l" (String "o" (String "c" (String "k" (String "_"
              (itoa i +:+ String "_" ("node_" +:+ itoa (Z.of_nat k))))))))
            = String "b" (String "l" (String "o" (String "c" (String "k" (String "_"
              (itoa i'))))))) in H.
    injection H as H.
    pose proof (itoa_no_underscore i') as Hn. rewrite <- H, allChars_app in Hn.
    apply andb_true_iff in Hn as [_ Hn]. cbn [allChars] in Hn. by rewrite Hu in Hn.
Qed.

(** ** The listing on standard output *)

Lemma andThen_printf a b : andThen (printf a) (printf b) = printf (a +:+ b).
Proof. done. Qed.

Lemma printAll_finished {A} (f : A → Printed) (l : list A) :
  finished (printAll f l) = true ↔ ∀ a, a ∈ l → finished (f a) = true.
Proof.
  induction l as [|a l IH]; simpl.
  - split; [|done]. intros _ a Ha. by apply elem_of_nil in Ha.
  - unfold andThen. destruct (finished (f a)) eqn:E; simpl.
    + rewrite IH. split.
      * intros H x Hx. apply elem_of_cons in Hx as [->|Hx]; auto.
      * intros H x Hx. apply H. by right.
    + rewrite E. split; [done|]. intros H. rewrite <- E. apply H. by left.
Qed.

(** A loop that panics at [a] has written what the iterations before [a]
    and the one at [a] wrote, and nothing after. *)
Lemma printAll_panic {A} (f : A → Printed) (before after : list A) (a : A) :
  finished (printAll f before) = true → finished (f a) = false →
  printAll f (before ++ a :: after)
  = {| stdout := stdout (printAll f before) +:+ stdout (f a); finished := false |}.
Proof.
  intros Hb Ha. induction before as [|x before IH]; simpl in *.
  - unfold andThen. rewrite Ha. destruct (f a) as [s fin]. simpl in *. by subst.
  - unfold andThen in *. destruct (finished (f x)) eqn:E; [|congruence].
    simpl in *. rewrite IH by done. simpl. by rewrite append_assoc.
Qed.

Lemma printNames_printf values i names :
  ∃ s, printNames values i names = printf s.
Proof.
  revert i. induction names as [|name names IH]; intros i; [by eexists|].
  simpl. destruct (IH (S i)) as [s ->]. by eexists.
Qed.

Lemma printLhs_printf rhs i lhs : ∃ s, printLhs rhs i lhs = printf s.
Proof.
  revert i. induction lhs as [|e lhs IH]; intros i; [by eexists|].
  destruct (IH (S i)) as [s Hs].
  destruct e; simpl; rewrite Hs; by eexists.
Qed.

Lemma printNode_finished node : finished (printNode node) = printable node.
Proof.
  destruct node as [v|d|lhs rhs|results|x|x tok|e|c hasElse|c|tok|t]; simpl; try done.
  - unfold printValueSpec. by destruct (printNames_printf (Values v) 0 (Names v)) as [s ->].
  - destruct d as [[|[v| |] specs]| |]; try done.
    unfold printValueSpec. by destruct (printNames_printf (Values v) 0 (Names v)) as [s ->].
  - unfold printAssignStmt. by destruct (printLhs_printf rhs 0 lhs) as [s ->].
  - by destruct x.
  - by destruct x.
  - destruct e as [| | | | |x|]; try done. by destruct x.
Qed.

Lemma printBlock_finished succString block :
  finished (printBlock succString block) = true
  ↔ ∀ node, node ∈ Nodes block → printable node = true.
Proof.
  unfold printBlock, andThen. cbn [finished printf].
  destruct (finished (printAll printNode (Nodes block))) eqn:E; cbn [finished].
  - pose proof (proj1 (printAll_finished _ _) E) as E1. split.
    + intros _ node Hn. rewrite <- printNode_finished. auto.
    + intros _. apply (proj2 (printAll_finished _ _)). intros a _. reflexivity.
  - rewrite E. split; [done|]. intros H. rewrite <- E.
    apply (proj2 (printAll_finished _ _)).
    intros node Hn. rewrite printNode_finished. auto.
Qed.

Lemma printCFG_finished succString cg :
  finished (printCFG succString cg) = true
  ↔ ∀ block node, block ∈ Blocks cg → node ∈ Nodes block → printable node = true.
Proof.
  unfold printCFG. rewrite printAll_finished. split.
  - intros H block node Hb. by apply (proj1 (printBlock_finished _ _) (H _ Hb)).
  - intros H block Hb. apply (proj2 (printBlock_finished _ _)). intros node. by apply H.
Qed.

(** X14.  The listing runs to the end exactly when every node of every
    block, live or not, passes the unchecked type assertions of
    [printCFG]: no declaration statement without a leading value
    specification, no increment or decrement of anything but an
    identifier.  When it panics at a block, what it has written is the
    listing of the blocks before followed by what the block wrote before
    the panic. *)
Theorem listing_finishes_iff_printable (succString : SuccRef → string) (cg : CFG) :
  (finished (printCFG succString cg) = true
   ↔ ∀ block node, block ∈ Blocks cg → node ∈ Nodes block → printable node = true)
  ∧ (∀ before block after,
       Blocks cg = before ++ block :: after →
       (∀ b node, b ∈ before → node ∈ Nodes b → printable node = true) →
       finished (printBlock succString block) = false →
       printCFG succString cg
       = {| stdout := stdout (printCFG succString {| Blocks := before |})
                      +:+ stdout (printBlock succString block);
            finished := false |}).
Proof.
  split; [apply printCFG_finished|].
  intros before block after Hcg Hbefore Hblock. unfold printCFG. rewrite Hcg.
  apply printAll_panic; [|done]. apply (proj2 (printAll_finished _ _)).
  intros b Hb. apply (proj2 (printBlock_finished _ _)). intros node. by apply Hbefore.
Qed.

Lemma printable_nodeOK cg block node : nodeOK cg block node = true → printable node = true.
Proof.
  destruct node as [v|d|lhs rhs|results|x|x tok|e|c hasElse|c|tok|t]; simpl; try done.
Qed.

(** X15.  On a graph whose blocks are all live the listing cannot panic
    where the rendering returns: whenever [genDot] returns a document,
    [printCFG] runs to the end. *)
Theorem rendering_returns_then_listing_finishes (ord : MapOrder)
    (succString : SuccRef → string) (cg : CFG) (out : Output) :
  (∀ block, block ∈ Blocks cg → Live block = true) →
  genDot ord cg = Ok out →
  finished (printCFG succString cg) = true.
Proof.
  intros Hlive Hg. apply (proj2 (printCFG_finished _ _)). intros block node Hb Hn.
  destruct (printable node) eqn:E; [done|]. pose proof (Hlive _ Hb) as Hl.
  apply list_elem_of_lookup in Hb as [i Hi]. apply list_elem_of_lookup in Hn as [k Hk].
  rewrite (genDot_Panic_node ord cg i block k node) in Hg; [done|done|done|done|].
  destruct (nodeOK cg block node) eqn:E'; [|done].
  apply printable_nodeOK in E'. congruence.
Qed.

Lemma declNames_text absent nodeID values j names st :
  absent = "nil" ∨ j + length names ≤ length values →
  ∃ texts,
    dot (declNames absent nodeID values j names st)
    = dot st +:+ concatAll (nodeLine nodeID <$> texts)
    ∧ printNames values j names = printf (concatAll (listingLine <$> texts)).
Proof.
  revert j st. induction names as [|name names IH]; intros j st Habs.
  - exists []. simpl. by rewrite append_nil_r.
  - cbn [declNames printNames].
    set (value := match values !! j with Some e => getValue e | None => absent end).
    set (value' := match values !! j with Some e => getValue e | None => "nil" end).
    assert (Hv : value = value').
    { unfold value, value'. destruct (values !! j) eqn:E; [done|].
      destruct Habs as [->|Hlen]; [done|].
      apply lookup_ge_None in E. simpl in Hlen. lia. }
    destruct (IH (S j)
                (incInput name
                   (recordVar name nodeID
                      (emit (nodeLine nodeID (name +:+ " = " +:+ value)) st))))
      as (texts & Hdot & Hprint).
    { destruct Habs as [->|Hlen]; [by left|right; simpl in Hlen; lia]. }
    exists ((name +:+ " = " +:+ value) :: texts). split.
    + rewrite Hdot. cbn [dot incInput recordVar emit fmap list_fmap concatAll].
      by rewrite append_assoc.
    + rewrite Hprint, <- Hv. by rewrite andThen_printf.
Qed.

Lemma assignLhs_text nodeID rhs j lhs st st' :
  assignLhs nodeID rhs j lhs st = Ok st' →
  ∃ texts,
    dot st' = dot st +:+ concatAll (nodeLine nodeID <$> texts)
    ∧ printLhs rhs j lhs = printf (concatAll (listingLine <$> texts)).
Proof.
  revert j st. induction lhs as [|e lhs IH]; intros j st.
  - intros [= <-]. exists []. simpl. by rewrite append_nil_r.
  - destruct e as [v|name|x op y|f args|x sel|x|t]; cbn [assignLhs printLhs];
      try apply IH.
    unfold assignIdent. destruct (rhs !! j) as [e|] eqn:E; [|done].
    cbn [mbind result_bind]. intros H. apply IH in H as (texts & Hdot & Hprint).
    exists ((name +:+ " = " +:+ getValue e) :: texts). split.
    + rewrite Hdot. cbn [fmap list_fmap concatAll].
      rewrite <- (append_assoc (dot st) (nodeLine nodeID (name +:+ " = " +:+ getValue e))).
      f_equal. by destruct (isBinaryExpr e).
    + rewrite Hprint. by rewrite andThen_printf.
Qed.

(** X16.  For a declaration, an assignment, an increment or decrement and
    a binary test, the listing and the document show the same texts: the
    lines the listing prints for the node and the labels the document gets
    for it carry, in the same order, the same list of texts.  (For a bare
    value specification this holds when each name has a value: for a name
    without one the document says nul where the listing says nil.) *)
Theorem listing_and_document_show_same_text (cg : CFG) (block : Block)
    (nodeID : string) (node : Node) (loopID : string) (st : State)
    (loopID' : string) (st' : State) :
  sameText node = true →
  classifyNode cg block nodeID node loopID st = Ok (loopID', st') →
  ∃ texts,
    dot st' = dot st +:+ concatAll (nodeLine nodeID <$> texts)
    ∧ printNode node = printf (concatAll (listingLine <$> texts)).
Proof.
  destruct node as [v|d|lhs rhs|results|x|x tok|e|c hasElse|c|tok|t];
    cbn [sameText classifyNode printNode]; try done.
  - intros Hlen [= <- <-]. apply bool_decide_eq_true_1 in Hlen.
    apply declNames_text. right. simpl. lia.
  - intros _. destruct d as [[|[v| |] specs]| |]; try done.
    intros [= <- <-]. apply declNames_text. by left.
  - intros _. destruct (assignLhs nodeID rhs 0 lhs st) as [st1|] eqn:E; [|done].
    cbn [mbind result_bind]. intros [= <- <-]. by apply (assignLhs_text nodeID rhs 0 lhs st).
  - destruct x as [v|name|x op y|f args|x sel|x|t]; try done.
    intros _ [= <- <-]. exists [getValue x +:+ " " +:+ op +:+ " " +:+ getValue y].
    cbn [fmap list_fmap concatAll dot emit]. by rewrite !append_nil_r.
  - intros _. destruct x as [v|name|x op y|f args|x sel|x|t]; try done.
    intros [= <- <-]. exists [name +:+ " " +:+ tok].
    cbn [fmap list_fmap concatAll dot emit markModified recordVar printIncDecStmt].
    by rewrite !append_nil_r.
  - destruct e as [v|name|x op y|f args|x sel|x|t]; try done.
    + intros _ [= <- <-]. exists [getValue x +:+ " " +:+ op +:+ " " +:+ getValue y].
      cbn [fmap list_fmap concatAll dot emit markControl classifyExpr].
      by rewrite !append_nil_r.
    + destruct x as [v|name|x op y|f args|x sel|x|t]; try done.
      intros _ [= <- <-]. exists [getValue x +:+ " " +:+ op +:+ " " +:+ getValue y].
      cbn [fmap list_fmap concatAll dot emit classifyExpr]. by rewrite !append_nil_r.
Qed.

(** * Instances *)

Module Witnesses.

Import Samples.

Lemma chepin_score_witness :
  traverse mixedRoles = Ok mixedRolesState
  ∧ ∃ out, genDot inOrder mixedRoles = Ok out
      ∧ dom (inputSet (roles out)) = {[ "x" ]}
      ∧ modifiedSet (roles out) = {[ "s"; "t"; "i" ]}
      ∧ controlSet (roles out) = {[ "n"; "2" ]}
      ∧ unusedSet (roles out) = {[ "u" ]}
      ∧ (chepinScore out == 27 # 2)%Q.
Proof.
  assert (Ht : traverse mixedRoles = Ok mixedRolesState) by (vm_compute; reflexivity).
  split; [exact Ht|].
  destruct (chepin_score_over_reconciled_sets inOrder mixedRoles mixedRolesState Ht)
    as (out & Hg & HC & HM & HT & HP & _ & HQ).
  exists out. split; [exact Hg|].
  rewrite HC, HM, HT, HP, HQ. repeat split; vm_compute; reflexivity.
Defined.

Lemma role_sets_disjoint_witness :
  genDot inOrder fibHead = Ok fibHeadOutput
  ∧ dom (inputSet (roles fibHeadOutput)) ## controlSet (roles fibHeadOutput)
  ∧ modifiedSet (roles fibHeadOutput) ## controlSet (roles fibHeadOutput)
  ∧ dom (inputSet (roles fibHeadOutput)) ## modifiedSet (roles fibHeadOutput).
Proof.
  assert (Hg : genDot inOrder fibHead = Ok fibHeadOutput) by (vm_compute; reflexivity).
  split; [exact Hg|].
  exact (role_sets_pairwise_disjoint inOrder fibHead fibHeadOutput Hg).
Defined.

(** The successor graph of [straight] has the one edge 0 → 1. *)
Lemma straight_step i j : succStep straight i j → i = 0%Z ∧ j = 1%Z.
Proof.
  intros (b & s & Hb & Hs & <-). apply blockAt_Ok in Hb as [Hr Hb].
  simpl in Hr. assert (Hi : i = 0%Z ∨ i = 1%Z ∨ i = 2%Z) by lia.
  destruct Hi as [-> | [-> | ->]]; simpl in Hb; injection Hb as <-; simpl in Hs.
  - apply list_elem_of_singleton in Hs as ->. done.
  - by apply elem_of_nil in Hs.
  - by apply elem_of_nil in Hs.
Qed.

Lemma straight_noBranchNoLoop : noBranchNoLoop straight.
Proof.
  assert (Hreach : ∀ i, rtc (succStep straight) 0%Z i → i = 0%Z ∨ i = 1%Z).
  { intros i Hr. apply rtc_inv_r in Hr as [<-|(y & _ & Hs)]; [by left|].
    apply straight_step in Hs as [_ ->]. by right. }
  assert (Hcases : ∀ i b, blockAt straight i = Ok b →
            (i = 0%Z ∨ i = 1%Z ∨ i = 2%Z)).
  { intros i b Hb. apply blockAt_Ok in Hb as [Hr _]. simpl in Hr. lia. }
  split.
  - eexists. reflexivity.
  - reflexivity.
  - intros i b Hb. destruct (Hcases i b Hb) as [-> | [-> | ->]];
      vm_compute in Hb; injection Hb as <-; simpl.
    + split; [intros _; apply rtc_refl|done].
    + split; [intros _|done]. apply rtc_once.
      eexists _, (succ 1 KindLabel). split; [reflexivity|]. split; [left|done].
    + split; [done|]. intros Hr. destruct (Hreach _ Hr); done.
  - intros i b Hb _. destruct (Hcases i b Hb) as [-> | [-> | ->]];
      vm_compute in Hb; injection Hb as <-; simpl; lia.
  - intros i b Hb _ Htc. inversion Htc as [x y Hs|x y z Hs Ht]; subst.
    + apply straight_step in Hs as [-> ?]. done.
    + apply straight_step in Hs as [-> ->].
      inversion Ht as [x y Hs'|x y z Hs' _]; subst;
        apply straight_step in Hs' as [? _]; done.
Qed.

Lemma cyclomatic_witness :
  wellFormed straight = true
  ∧ noBranchNoLoop straight
  ∧ ∃ out, genDot inOrder straight = Ok out
      ∧ cyclomaticComplexity out = (liveEdges straight - liveNodes straight + 2)%Z
      ∧ cyclomaticComplexity out = 1%Z.
Proof.
  split; [reflexivity|]. split; [exact straight_noBranchNoLoop|].
  destruct (cyclomatic_is_E_minus_N_plus_2 inOrder straight) as [Htot Hval].
  destruct (Htot eq_refl) as [out Hout]. exists out. split; [exact Hout|].
  destruct (Hval out Hout) as [HEN H1]. split; [exact HEN|].
  exact (H1 straight_noBranchNoLoop).
Defined.

Lemma binary_test_witness :
  genDot inOrder fibHead = Ok fibHeadOutput
  ∧ "n" ∈ controlSet (roles fibHeadOutput)
  ∧ "2" ∈ controlSet (roles fibHeadOutput).
Proof.
  assert (Hg : genDot inOrder fibHead = Ok fibHeadOutput) by (vm_compute; reflexivity).
  split; [exact Hg|].
  destruct (binary_test_operands_in_control_set inOrder) as [_ Hall].
  exact (Hall fibHead fibHeadOutput 0 _ 2 (Ident "n") "<" (BasicLit "2")
           Hg eq_refl eq_refl eq_refl).
Defined.


Lemma one_chain_atMostOneChain : atMostOneChain (variables oneChainState).
Proof.
  assert (H : map_Forall (fun k l => length l ≤ 1 ∨ k = "x")
                (variables oneChainState)).
  { apply (bool_decide_eq_true_1 _). vm_compute. reflexivity. }
  intros k1 k2 l1 l2 H1 H2 Hl1 Hl2.
  apply H in H1, H2. destruct H1 as [? | ->], H2 as [? | ->]; (lia || done).
Qed.

Lemma map_order_witness :
  genDot inOrder oneChain = Ok (oneChainOutput inOrder)
  ∧ genDot reversed oneChain = Ok (oneChainOutput reversed)
  ∧ chepinScore (oneChainOutput inOrder) = chepinScore (oneChainOutput reversed)
  ∧ document (oneChainOutput inOrder) = document (oneChainOutput reversed).
Proof.
  assert (H1 : genDot inOrder oneChain = Ok (oneChainOutput inOrder))
    by (vm_compute; reflexivity).
  assert (H2 : genDot reversed oneChain = Ok (oneChainOutput reversed))
    by (vm_compute; reflexivity).
  split; [exact H1|]. split; [exact H2|].
  destruct (scores_fixed_document_up_to_map_order inOrder reversed oneChain)
    as [_ Hall].
  destruct (Hall _ _ H1 H2) as (_ & HQ & _ & Hdoc). split; [exact HQ|].
  apply (Hdoc oneChainState); [vm_compute; reflexivity|].
  right. exact one_chain_atMostOneChain.
Defined.


Lemma non_identifier_lhs_witness :
  Forall (fun e => isIdent e = false)
    [SelectorExpr (Ident "p") "x"; OtherExpr "*ast.IndexExpr"]
  ∧ classifyNode emptyBody
      {| Nodes := [fieldAssign]; Succs := []; Index := 0; Live := true;
         BString := EmptyString |}
      "block_0_node_0" fieldAssign EmptyString initState
    = Ok (EmptyString, initState).
Proof.
  assert (H : Forall (fun e => isIdent e = false)
                [SelectorExpr (Ident "p") "x"; OtherExpr "*ast.IndexExpr"])
    by (repeat constructor).
  split; [exact H|].
  destruct (non_identifier_lhs_skipped emptyBody
              {| Nodes := [fieldAssign]; Succs := []; Index := 0; Live := true;
                 BString := EmptyString |}
              "block_0_node_0"
              [SelectorExpr (Ident "p") "x"; OtherExpr "*ast.IndexExpr"]
              [BasicLit "1"; BasicLit "2"] EmptyString initState)
    as (_ & _ & Hskip).
  exact (Hskip H).
Defined.

End Witnesses.

Module FurtherInstances.

Import Samples MoreSamples.

Lemma fibHead_runs :
  traverse fibHead = Ok fibHeadState ∧ genDot inOrder fibHead = Ok fibHeadOutput.
Proof. split; vm_compute; reflexivity. Qed.

Lemma role_sets_partition_witness :
  traverse fibHead = Ok fibHeadState
  ∧ genDot inOrder fibHead = Ok fibHeadOutput
  ∧ unusedSet (roles fibHeadOutput) ## controlSet (roles fibHeadOutput)
  ∧ dom (inputSet (roles fibHeadOutput)) ∪ modifiedSet (roles fibHeadOutput)
      ∪ controlSet (roles fibHeadOutput) ∪ unusedSet (roles fibHeadOutput)
    = classifiedNames fibHeadState.
Proof.
  destruct fibHead_runs as [Ht Hg]. split; [exact Ht|]. split; [exact Hg|].
  destruct (role_sets_partition_classified_names inOrder fibHead fibHeadState
              fibHeadOutput Ht Hg) as (_ & _ & HC & Hall).
  split; [exact HC|exact Hall].
Defined.

Lemma chepin_score_bounds_witness :
  traverse fibHead = Ok fibHeadState
  ∧ genDot inOrder fibHead = Ok fibHeadOutput
  ∧ ((1 # 2) * inject_Z (Z.of_nat (size (classifiedNames fibHeadState)))
     <= chepinScore fibHeadOutput)%Q
  ∧ (chepinScore fibHeadOutput
     <= 3 * inject_Z (Z.of_nat (size (classifiedNames fibHeadState))))%Q.
Proof.
  destruct fibHead_runs as [Ht Hg]. split; [exact Ht|]. split; [exact Hg|].
  exact (chepin_score_bounds inOrder fibHead fibHeadState fibHeadOutput Ht Hg).
Defined.

Lemma traversal_only_adds_witness :
  blocksLoop fibHead (Blocks fibHead) initState = Ok fibHeadState
  ∧ extends initState fibHeadState.
Proof.
  destruct fibHead_runs as [Ht _]. split; [exact Ht|].
  exact (proj2 (proj2 (traversal_only_adds fibHead)) _ _ _ Ht).
Defined.

Lemma document_is_framed_witness :
  genDot inOrder fibHead = Ok fibHeadOutput
  ∧ ∃ body, document fibHeadOutput = "digraph G {" +:+ nl +:+ body +:+ "}" +:+ nl.
Proof.
  destruct fibHead_runs as [_ Hg]. split; [exact Hg|].
  exact (document_is_framed inOrder fibHead fibHeadOutput Hg).
Defined.

Lemma emptyBody_no_statements b :
  b ∈ Blocks emptyBody → Live b = false ∨ Nodes b = [].
Proof. intros Hb. apply list_elem_of_singleton in Hb as ->. by right. Qed.

Lemma blocks_without_statements_witness :
  (∀ b, b ∈ Blocks emptyBody → Live b = false ∨ Nodes b = [])
  ∧ ∃ out, genDot inOrder emptyBody = Ok out
      ∧ document out = "digraph G {" +:+ nl +:+ "}" +:+ nl
      ∧ (chepinScore out == 0)%Q.
Proof.
  split; [exact emptyBody_no_statements|].
  destruct (proj2 (blocks_without_statements_are_silent inOrder emptyBody)
              emptyBody_no_statements) as (out & Hg & Hdoc & _ & _ & _ & _ & HQ).
  exists out. split; [exact Hg|]. split; [exact Hdoc|exact HQ].
Defined.

Lemma fibEntry_runs : blockBody fibHead fibEntry initState = Ok fibEntryState.
Proof. vm_compute; reflexivity. Qed.

Lemma successor_edges_witness :
  Live fibEntry = true ∧ Nodes fibEntry ≠ []
  ∧ blockBody fibHead fibEntry initState = Ok fibEntryState
  ∧ ∃ loc st1,
      nodesLoop fibHead fibEntry "block_0" 0 (Nodes fibEntry) freshLocals initState
      = Ok (loc, st1)
      ∧ lastNodeID loc = "block_0_node_2"
      ∧ succsLoop fibHead "block_0_node_2" (Succs fibEntry) st1 = Ok fibEntryState.
Proof.
  assert (Hne : Nodes fibEntry ≠ []) by done.
  split; [reflexivity|]. split; [exact Hne|]. split; [exact fibEntry_runs|].
  exact (successor_edges_leave_from_last_node fibHead fibEntry initState
           fibEntryState eq_refl Hne fibEntry_runs).
Defined.

Lemma cleanup_strips_witness :
  Cleanup.stripBlockPrefix
    ("label=" +:+ dq +:+ "block 12 (IfDone)" +:+ dq +:+ "];")
  = "label=" +:+ dq +:+ "(IfDone)" +:+ dq +:+ "];".
Proof.
  assert (H12 : "12" ≠ EmptyString) by done.
  assert (Hg : "(IfDone)" ≠ EmptyString) by done.
  exact (cleanup_strips_block_prefix "12" "(IfDone)" "];" H12 eq_refl Hg eq_refl).
Defined.

Lemma cleanup_untouched_witness :
  contains "digraph G {" ("label=" +:+ dq +:+ "block ") = false
  ∧ Cleanup.stripBlockPrefix "digraph G {" = "digraph G {".
Proof.
  split; [reflexivity|].
  exact (proj2 (cleanup_never_lengthens "digraph G {") eq_refl).
Defined.

Lemma call_label_witness :
  ∃ label,
    classifyNode emptyCycle fibEntry "block_0_node_0"
      (ExprStmt (CallExpr (Ident "f") [Ident "x"; Ident "y"])) EmptyString initState
    = Ok (EmptyString, emit (nodeLine "block_0_node_0" label) initState)
    ∧ label = "f(x, y)".
Proof.
  destruct (call_statement_label_is_escaped emptyCycle fibEntry "block_0_node_0"
              (Ident "f") [Ident "x"; Ident "y"] EmptyString initState)
    as (label & Hc & _ & Hplain).
  exists label. split; [exact Hc|]. exact (Hplain eq_refl).
Defined.

Lemma trace_edges_witness :
  ∃ edges,
    traceEdges "x" ["block_0_node_0"; "block_0_node_1"; "block_1_node_0"]
    = concatAll edges
    ∧ length edges = 2
    ∧ edges !! 1 = Some (traceEdge "block_0_node_1" "block_1_node_0" "x").
Proof.
  destruct (trace_edges_link_consecutive_nodes "x"
              ["block_0_node_0"; "block_0_node_1"; "block_1_node_0"])
    as (edges & Hc & Hlen & Hedge).
  exists edges. split; [exact Hc|]. split; [exact Hlen|].
  exact (Hedge 1 "block_0_node_1" "block_1_node_0" eq_refl eq_refl).
Defined.

Lemma oneChain_runs :
  traverse oneChain = Ok oneChainState
  ∧ genDot inOrder oneChain = Ok (oneChainOutput inOrder).
Proof. split; vm_compute; reflexivity. Qed.

Lemma oneChain_sets :
  inputSet (roles (oneChainOutput inOrder)) !! "x" = Some 2
  ∧ "y" ∈ unusedSet (roles (oneChainOutput inOrder)).
Proof.
  split; [vm_compute; reflexivity|].
  apply (bool_decide_eq_true_1 ("y" ∈ unusedSet (roles (oneChainOutput inOrder)))).
  vm_compute. reflexivity.
Qed.

Lemma input_names_witness :
  traverse oneChain = Ok oneChainState
  ∧ genDot inOrder oneChain = Ok (oneChainOutput inOrder)
  ∧ inputSet (roles (oneChainOutput inOrder)) !! "x" = Some 2
  ∧ "y" ∈ unusedSet (roles (oneChainOutput inOrder))
  ∧ (∃ nodes, variables oneChainState !! "x" = Some nodes ∧ 2 ≤ length nodes)
  ∧ inputVars oneChainState !! "y" = Some 1.
Proof.
  destruct oneChain_runs as [Ht Hg]. destruct oneChain_sets as [Hx Hy].
  split; [exact Ht|]. split; [exact Hg|]. split; [exact Hx|]. split; [exact Hy|].
  destruct (input_names_counted_twice inOrder oneChain oneChainState
              (oneChainOutput inOrder) Ht Hg) as [Hin Hun].
  split; [exact (proj2 (proj2 (Hin "x" 2 Hx)))|exact (Hun "y" Hy)].
Defined.

Lemma skipEmpty_lookahead :
  findNextBlockWithNodes skipEmpty 1 = Ok (Some returnBlock).
Proof. vm_compute; reflexivity. Qed.

Lemma lookahead_nearest_witness :
  findNextBlockWithNodes skipEmpty 1 = Ok (Some returnBlock)
  ∧ ∃ n j, nsteps (succStep skipEmpty) n 1%Z j
      ∧ blockAt skipEmpty j = Ok returnBlock ∧ Nodes returnBlock ≠ []
      ∧ ∀ m j' b', m < n → nsteps (succStep skipEmpty) m 1%Z j' →
          blockAt skipEmpty j' = Ok b' → Nodes b' = [].
Proof.
  split; [exact skipEmpty_lookahead|].
  exact (proj1 (lookahead_finds_a_nearest_block skipEmpty 1) returnBlock
           skipEmpty_lookahead).
Defined.

Lemma node_identifiers_witness :
  nodeName (blockName 1) 12 = nodeName (blockName 1) 12
  ∧ (1%Z = 1%Z ∧ 12 = 12)
  ∧ nodeName (blockName 11) 2 ≠ nodeName (blockName 1) 12.
Proof.
  split; [reflexivity|].
  split; [exact (proj1 (node_identifiers_are_unique 1 1 12 12) eq_refl)|].
  intros H. destruct (proj1 (node_identifiers_are_unique 11 1 2 12) H) as [H1 _].
  discriminate H1.
Defined.

Lemma deadCode_before b node :
  b ∈ [liveReturn] → node ∈ Nodes b → printable node = true.
Proof.
  intros Hb Hn. apply list_elem_of_singleton in Hb as ->.
  apply list_elem_of_singleton in Hn as ->. done.
Qed.

Lemma listing_panics_witness :
  is_Ok (genDot inOrder deadCode)
  ∧ finished (printBlock succName deadIncrement) = false
  ∧ printCFG succName deadCode
    = {| stdout := "Block: block 0 (Body)" +:+ nl +:+ " -> Return: [a]" +:+ nl
                   +:+ "Block: block 1 (Unreachable)" +:+ nl;
         finished := false |}.
Proof.
  split; [eexists; vm_compute; reflexivity|]. split; [reflexivity|].
  exact (proj2 (listing_finishes_iff_printable succName deadCode)
           [liveReturn] deadIncrement [] eq_refl deadCode_before eq_refl).
Defined.

Lemma fibHead_all_live block : block ∈ Blocks fibHead → Live block = true.
Proof.
  intros Hb. repeat (apply elem_of_cons in Hb as [->|Hb]; [reflexivity|]).
  by apply elem_of_nil in Hb.
Qed.

Lemma listing_finishes_witness :
  (∀ block, block ∈ Blocks fibHead → Live block = true)
  ∧ genDot inOrder fibHead = Ok fibHeadOutput
  ∧ finished (printCFG succName fibHead) = true.
Proof.
  destruct fibHead_runs as [_ Hg].
  split; [exact fibHead_all_live|]. split; [exact Hg|].
  exact (rendering_returns_then_listing_finishes inOrder succName fibHead
           fibHeadOutput fibHead_all_live Hg).
Defined.

Lemma same_text_witness :
  ∃ texts,
    dot (incInput "a" (recordVar "a" "block_0_node_0"
           (emit (nodeLine "block_0_node_0" "a = 0") initState)))
    = dot initState +:+ concatAll (nodeLine "block_0_node_0" <$> texts)
    ∧ printNode (AssignStmt [Ident "a"] [BasicLit "0"])
      = printf (concatAll (listingLine <$> texts)).
Proof.
  exact (listing_and_document_show_same_text fibHead fibEntry "block_0_node_0"
           (AssignStmt [Ident "a"] [BasicLit "0"]) EmptyString initState
           EmptyString _ eq_refl eq_refl).
Defined.

End FurtherInstances.
